(** * Learning-DSA-with-Python: dynamic array, two-sum and comparison sorts

    A shallow embedding of [data_structures/arrays.py] and
    [algorithms/sorting.py], followed by the properties of the
    specification that concern them.

    Python integers are unbounded, so they are [Z]; indices that the code
    only ever uses as positions of an existing list are [nat].  Python lists
    are [list]s, read and written through [getitem]/[setitem], which raise
    [IndexError] out of range as the interpreter does.  The [DynamicArray]
    object is mutated in place, also by a call that ends in an exception, so
    its methods are computations in a state-and-exception monad whose state
    survives a raise. *)

From stdpp Require Import gmap list sorting.
From Equations Require Import Equations.

#[local] Open Scope Z_scope.

(** ** Python primitives *)

Module Py.

(** The objects stored in the containers: [None] and integers. *)
Inductive value :=
| VNone
| VInt (n : Z).

#[export] Instance value_eq_dec : EqDecision value.
Proof. solve_decision. Defined.

(** Exceptions raised by the modelled code. *)
Inductive exn :=
| IndexError
| ValueError.

#[export] Instance exn_eq_dec : EqDecision exn.
Proof. solve_decision. Defined.

(** [l[i]] on a built-in list: a negative index counts from the end, and
    an index outside [-len(l), len(l))] raises (here: [None]). *)
Definition norm_index {A} (l : list A) (i : Z) : option nat :=
  let n := Z.of_nat (length l) in
  if (0 <=? i) && (i <? n) then Some (Z.to_nat i)
  else if (i <? 0) && (0 <=? i + n) then Some (Z.to_nat (i + n))
  else None.

Definition getitem {A} (l : list A) (i : Z) : option A :=
  k ← norm_index l i; l !! k.

(** [l[i] = x] on a built-in list. *)
Definition setitem {A} (l : list A) (i : Z) (x : A) : option (list A) :=
  k ← norm_index l i; Some (<[k := x]> l).

(** [range(a, b)]: a, a+1, ..., b-1. *)
Definition range (a b : Z) : list Z :=
  (λ k : nat, a + Z.of_nat k) <$> seq 0 (Z.to_nat (b - a)).

(** [range(a, b, -1)]: a, a-1, ..., b+1. *)
Definition range_down (a b : Z) : list Z :=
  (λ k : nat, a - Z.of_nat k) <$> seq 0 (Z.to_nat (a - b)).

(** [[x] * n]: the empty list when [n <= 0]. *)
Definition repeat_list {A} (x : A) (n : Z) : list A :=
  replicate (Z.to_nat n) x.

End Py.

(** ** [class DynamicArray] *)

Module DynamicArray.
Import Py.

Record t := Build {
  _capacity : Z;
  _size : Z;
  _array : list value
}.

(** A call of [_resize], recorded with the size the array had then. *)
Record resize_call := ResizeCall {
  new_capacity_arg : Z;
  size_at_call : Z
}.

(** What a method call leaves behind: the object after the call (mutated
    in place, whether or not the call raised), the calls of [_resize] made
    on the way, and the returned value or the exception. *)
Record outcome (A : Type) := Outcome {
  self_after : t;
  resizes : list resize_call;
  result : exn + A
}.
Arguments Outcome {A} _ _ _.
Arguments self_after {A} _.
Arguments resizes {A} _.
Arguments result {A} _.

Definition M (A : Type) : Type := t → outcome A.

Definition ret {A} (x : A) : M A := λ self, Outcome self [] (inr x).

Definition raise {A} (e : exn) : M A := λ self, Outcome self [] (inl e).

Definition bind {A B} (m : M A) (f : A → M B) : M B := λ self,
  let r := m self in
  match result r with
  | inl e => Outcome (self_after r) (resizes r) (inl e)
  | inr x =>
      let r' := f x (self_after r) in
      Outcome (self_after r') (resizes r ++ resizes r') (result r')
  end.

Notation "x ←' m ; f" := (bind m (λ x, f))
  (at level 100, m at next level, f at level 200, right associativity, only parsing).
Notation "m ;;' f" := (bind m (λ _, f))
  (at level 100, f at level 200, right associativity, only parsing).

(** Reading and writing the attributes of [self]. *)
Definition get_capacity : M Z := λ self, Outcome self [] (inr (_capacity self)).
Definition get_size : M Z := λ self, Outcome self [] (inr (_size self)).
Definition get_array : M (list value) := λ self, Outcome self [] (inr (_array self)).

Definition set_capacity (c : Z) : M unit := λ self,
  Outcome (Build c (_size self) (_array self)) [] (inr tt).
Definition set_size (n : Z) : M unit := λ self,
  Outcome (Build (_capacity self) n (_array self)) [] (inr tt).
Definition set_array (a : list value) : M unit := λ self,
  Outcome (Build (_capacity self) (_size self) a) [] (inr tt).

(** A list operation that raises [IndexError] when it has no result. *)
Definition index_or_raise {A} (o : option A) : M A :=
  match o with
  | Some x => ret x
  | None => raise IndexError
  end.

(** [self._array[i]] and [self._array[i] = x]. *)
Definition array_get (i : Z) : M value :=
  a ←' get_array; index_or_raise (getitem a i).
Definition array_set (i : Z) (x : value) : M unit :=
  a ←' get_array; a' ←' index_or_raise (setitem a i x); set_array a'.

(** Ghost action: note that [_resize] was entered. *)
Definition note_resize (new_capacity : Z) : M unit := λ self,
  Outcome self [ResizeCall new_capacity (_size self)] (inr tt).

(** [for i in idxs: body(i)]. *)
Fixpoint for_each (idxs : list Z) (body : Z → M unit) : M unit :=
  match idxs with
  | [] => ret tt
  | i :: idxs' => body i ;;' for_each idxs' body
  end.

(** [for i in idxs: acc = body(i, acc)], for a loop that updates a local. *)
Fixpoint for_fold {B} (idxs : list Z) (body : Z → B → M B) (acc : B) : M B :=
  match idxs with
  | [] => ret acc
  | i :: idxs' => acc' ←' body i acc; for_fold idxs' body acc'
  end.

(** [__init__(self, capacity=10)] *)
Definition __init__ (capacity : Z) : t :=
  {| _capacity := capacity; _size := 0; _array := repeat_list VNone capacity |}.

Definition default_capacity : Z := 10.

(** [__len__] *)
Definition __len__ : M Z := get_size.

(** [not 0 <= index < n] *)
Definition out_of_range (index n : Z) : bool :=
  negb ((0 <=? index) && (index <? n)).

(** [__getitem__] *)
Definition __getitem__ (index : Z) : M value :=
  size ←' get_size;
  if out_of_range index size then raise IndexError
  else array_get index.

(** [__setitem__] *)
Definition __setitem__ (index : Z) (v : value) : M unit :=
  size ←' get_size;
  if out_of_range index size then raise IndexError
  else array_set index v.

(** [_resize] *)
Definition _resize (new_capacity : Z) : M unit :=
  note_resize new_capacity ;;'
  size ←' get_size;
  new_array ←' for_fold (range 0 size)
     (λ i new_array, x ←' array_get i; index_or_raise (setitem new_array i x))
     (repeat_list VNone new_capacity);
  set_array new_array ;;'
  set_capacity new_capacity.

(** [append] *)
Definition append (v : value) : M unit :=
  size ←' get_size;
  capacity ←' get_capacity;
  (if size =? capacity then _resize (2 * capacity) else ret tt) ;;'
  size ←' get_size;
  array_set size v ;;'
  set_size (size + 1).

(** [insert] *)
Definition insert (index : Z) (v : value) : M unit :=
  size ←' get_size;
  if negb ((0 <=? index) && (index <=? size)) then raise IndexError
  else
    capacity ←' get_capacity;
    (if size =? capacity then _resize (2 * capacity) else ret tt) ;;'
    size ←' get_size;
    for_each (range_down size index)
      (λ i, x ←' array_get (i - 1); array_set i x) ;;'
    array_set index v ;;'
    set_size (size + 1).

(** [pop(self, index=-1)] *)
Definition pop (index : Z) : M value :=
  size ←' get_size;
  if size =? 0 then raise IndexError
  else
    let index := if index <? 0 then size + index else index in
    if out_of_range index size then raise IndexError
    else
      v ←' array_get index;
      for_each (range index (size - 1))
        (λ i, x ←' array_get (i + 1); array_set i x) ;;'
      array_set (size - 1) VNone ;;'
      set_size (size - 1) ;;'
      size ←' get_size;
      capacity ←' get_capacity;
      (if (0 <? size) && (size =? capacity `div` 4)
       then _resize (capacity `div` 2) else ret tt) ;;'
      ret v.

(** The scan of [remove]: [for i in range(self._size)] with its early
    [return], and the [raise] after the loop. *)
Fixpoint remove_scan (idxs : list Z) (v : value) : M unit :=
  match idxs with
  | [] => raise ValueError
  | i :: idxs' =>
      x ←' array_get i;
      if decide (x = v) then pop i ;;' ret tt
      else remove_scan idxs' v
  end.

(** [remove] *)
Definition remove (v : value) : M unit :=
  size ←' get_size; remove_scan (range 0 size) v.

(** One call on the object, as a client makes it. *)
Inductive call :=
| Len
| GetItem (index : Z)
| SetItem (index : Z) (v : value)
| Append (v : value)
| Insert (index : Z) (v : value)
| Remove (v : value)
| Pop (index : Z).

(** A method returns an object; the ones without [return value] give [None]. *)
Definition perform (c : call) : M value :=
  match c with
  | Len => n ←' __len__; ret (VInt n)
  | GetItem i => __getitem__ i
  | SetItem i v => __setitem__ i v ;;' ret VNone
  | Append v => append v ;;' ret VNone
  | Insert i v => insert i v ;;' ret VNone
  | Remove v => remove v ;;' ret VNone
  | Pop i => pop i
  end.

(** A client session: the calls one after the other, each exception caught
    by the client, the object carried on. Gives the object in the end and
    every [_resize] call made. *)
Fixpoint session (cs : list call) (self : t) : t * list resize_call :=
  match cs with
  | [] => (self, [])
  | c :: cs' =>
      let r := perform c self in
      let '(self', log) := session cs' (self_after r) in
      (self', resizes r ++ log)
  end.

(** The states a client can see: after construction and after any calls. *)
Definition reachable_from (capacity : Z) (self : t) : Prop :=
  ∃ cs, (session cs (__init__ capacity)).1 = self.

(** The invariant of the data model. *)
Definition size_invariant (self : t) : Prop :=
  0 ≤ _size self ≤ _capacity self.

(** [_resize] was given room for the elements present. *)
Definition resize_fits (c : resize_call) : Prop :=
  size_at_call c ≤ new_capacity_arg c.

(** Construction with the requested capacity gives an array of capacity at
    least 1 and no element: the constructor has rejected or clamped
    anything smaller. *)
Definition constructor_validates (requested : Z) : Prop :=
  1 ≤ _capacity (__init__ requested) ∧ _size (__init__ requested) = 0.

(** [append(v)] and then [pop()]: both return, [pop] gives back [v], and
    the length is what it was. *)
Definition append_pop_round_trip (self : t) (v : value) : Prop :=
  let appended := append v self in
  let popped := pop (-1) (self_after appended) in
  result appended = inr tt ∧
  result popped = inr v ∧
  _size (self_after popped) = _size self.

(** [cap] is the smallest [c * 2^m] that is at least [k]. *)
Definition least_doubling (c k cap : Z) : Prop :=
  ∃ m : nat, cap = c * 2 ^ Z.of_nat m ∧ k ≤ cap ∧
    ∀ m' : nat, k ≤ c * 2 ^ Z.of_nat m' → cap ≤ c * 2 ^ Z.of_nat m'.

(** The logical content: the elements at indices [0, size). *)
Definition elements (self : t) : list value :=
  take (Z.to_nat (_size self)) (_array self).

(** The representation invariant

    The backing list has [max(capacity, 0)] slots, the elements present fit
    in it, and the capacity has not dropped below [m]. With [m >= 0] this
    gives [0 <= size <= capacity]. *)
Definition well_formed (m : Z) (self : t) : Prop :=
  0 ≤ _size self ∧
  (Z.to_nat (_size self) ≤ length (_array self))%nat ∧
  length (_array self) = Z.to_nat (_capacity self) ∧
  m ≤ _capacity self.

(** The capacity is the initial one doubled [m] times, and every smaller
    number of doublings would be too small for the elements present. *)
Definition doubled (c : Z) (self : t) : Prop :=
  ∃ m : nat, _capacity self = c * 2 ^ Z.of_nat m ∧
    ∀ m' : nat, (m' < m)%nat → c * 2 ^ Z.of_nat m' < _size self.

(** A weakest-precondition reading of the methods

    [wp m Q E self]: run from [self], [m] only calls [_resize] with room
    for the elements present, and it either returns [x] in a state with
    [Q x] or raises [e] in a state with [E e]. *)
Definition wp {A} (m : M A) (Q : A → t → Prop) (E : exn → t → Prop)
  (self : t) : Prop :=
  Forall resize_fits (resizes (m self)) ∧
  match result (m self) with
  | inr x => Q x (self_after (m self))
  | inl e => E e (self_after (m self))
  end.

(** The backing list is the elements [els] followed by the free slots
    [junk]. *)
Definition stores (self : t) (els junk : list value) : Prop :=
  _array self = els ++ junk ∧ _size self = Z.of_nat (length els).

(** The same, with as many slots as the capacity says. *)
Definition holds (self : t) (els junk : list value) : Prop :=
  stores self els junk ∧
  _capacity self = Z.of_nat (length els + length junk).

(** Constructed with a capacity of 0 or less, the array has no slot and
    never gets one. *)
Definition barren (self : t) : Prop :=
  _size self = 0 ∧ _array self = [] ∧ _capacity self ≤ 0.

(** A new array of capacity 2 after [append(1)], [append(2)],
    [append(3)]. *)
Definition sample : t :=
  (session [Append (VInt 1); Append (VInt 2); Append (VInt 3)] (__init__ 2)).1.

(** A computation that never calls [_resize]. *)
Definition silent {A} (m : M A) : Prop := ∀ self, resizes (m self) = [].

(** The sizes the array had at the calls of [_resize] in a log, added
    up. *)
Definition sizes_at_resizes (log : list resize_call) : Z :=
  foldr (λ c acc, size_at_call c + acc) 0 log.

End DynamicArray.

(** ** [two_sum] *)

Module Search.

(** The loop [for i, num in enumerate(arr)] from position [i] on, [arr]
    being what is left of the list and [seen] the dictionary so far. The
    result is the returned list [[seen[complement], i]], or [None]. *)
Fixpoint two_sum_from (seen : gmap Z nat) (i : nat) (arr : list Z) (target : Z)
  : option (list nat) :=
  match arr with
  | [] => None
  | num :: rest =>
      let complement := target - num in
      match seen !! complement with
      | Some k => Some [k; i]
      | None => two_sum_from (<[num := i]> seen) (S i) rest target
      end
  end.

Definition two_sum (arr : list Z) (target : Z) : option (list nat) :=
  two_sum_from ∅ 0 arr target.

(** The dictionary the loop has built once it has passed over [arr]
    without returning: the assignments [seen[num] = i] alone. *)
Fixpoint seen_after (seen : gmap Z nat) (i : nat) (arr : list Z) : gmap Z nat :=
  match arr with
  | [] => seen
  | num :: rest => seen_after (<[num := i]> seen) (S i) rest
  end.

(** [i, j] is a valid pair: two different positions, the earlier first,
    whose elements add up to the target. *)
Definition valid_pair (arr : list Z) (target : Z) (i j : nat) : Prop :=
  (i < j)%nat ∧ ∃ a b, arr !! i = Some a ∧ arr !! j = Some b ∧ a + b = target.

(** The first position of the list holding the value found at [i]. *)
Definition first_index_of_value (arr : list Z) (i : nat) : Prop :=
  ∃ a, arr !! i = Some a ∧ ∀ i', (i' < i)%nat → arr !! i' ≠ Some a.

(** The last position before [j] holding the value found at [i]. *)
Definition last_index_of_value_before (arr : list Z) (i j : nat) : Prop :=
  ∃ a, arr !! i = Some a ∧ ∀ i', (i < i' < j)%nat → arr !! i' ≠ Some a.

(** [k] is the greatest position of [v] in [arr]. *)
Definition last_index_of (arr : list Z) (v : Z) (k : nat) : Prop :=
  arr !! k = Some v ∧ ∀ k', (k < k')%nat → arr !! k' ≠ Some v.

(** [v] is at one position of [arr] and no other. *)
Definition occurs_once (arr : list Z) (v : Z) : Prop :=
  ∃ i, arr !! i = Some v ∧ ∀ j, arr !! j = Some v → j = i.

(** The dictionary of the loop: every value met so far is mapped to the
    last position it was met at, and nothing else is in it. *)
Definition tracks_last (pre : list Z) (seen : gmap Z nat) : Prop :=
  ∀ v, match seen !! v with
       | Some k => last_index_of pre v k
       | None => ∀ k, pre !! k ≠ Some v
       end.

(** No two positions of [arr] add up to the target. *)
Definition no_pair (arr : list Z) (target : Z) : Prop :=
  ∀ i j, ¬ valid_pair arr target i j.

(** What the specification says of a returned pair: valid, its second
    index the smallest of all valid pairs, its first index the first
    position at which that value occurs. *)
Definition returns_first_index_pair (arr : list Z) (target : Z) : Prop :=
  ∀ i j, two_sum arr target = Some [i; j] →
    valid_pair arr target i j ∧
    (∀ i' j', valid_pair arr target i' j' → (j ≤ j')%nat) ∧
    first_index_of_value arr i.

(** *** [binary_search] *)

(** The loop [while left <= right] of [binary_search], entered with the
    two bounds. [None] is the [IndexError] of [arr[mid]]; the value [-1]
    is the answer "not found". *)
Equations? binary_search_loop (arr : list Z) (target : Z) (left_ right_ : Z)
  : option Z by wf (Z.to_nat (right_ - left_ + 1)) Nat.lt :=
binary_search_loop arr target left_ right_ with decide (left_ ≤ right_) := {
  | right _ => Some (-1)
  | left _ =>
      let mid := left_ + (right_ - left_) `div` 2 in
      match Py.getitem arr mid with
      | None => None
      | Some x =>
          if x =? target then Some mid
          else if x <? target then binary_search_loop arr target (mid + 1) right_
          else binary_search_loop arr target left_ (mid - 1)
      end }.
Proof.
  all: unfold Nat.lt; subst mid;
    assert (0 ≤ (right_ - left_) `div` 2 ≤ right_ - left_)
      by (split; [apply Z.div_pos | apply Z.div_le_upper_bound]; lia);
    lia.
Qed.

Definition binary_search (arr : list Z) (target : Z) : option Z :=
  binary_search_loop arr target 0 (Z.of_nat (length arr) - 1).

End Search.

(** ** Sorting *)

Module Sorting.

(** A value together with the fact that it is the value of [a]. *)
Definition inspect {A} (a : A) : {b | a = b} := exist _ a eq_refl.

(** In-place assignment [l[i] = x] at a non-negative index. *)
Definition store {A} (l : list A) (i : nat) (x : A) : option (list A) :=
  if decide (i < length l)%nat then Some (<[i := x]> l) else None.

Section Sorts.

(** The elements are compared through a key into a total order: two
    different elements may compare equal. Integers are the case
    [key := id]. *)
Context {A : Type} (key : A → Z).

(** [x > y], [x < y], [x <= y], [x == y] *)
Definition py_gt (x y : A) : bool := bool_decide (key x > key y).
Definition py_lt (x y : A) : bool := bool_decide (key x < key y).
Definition py_le (x y : A) : bool := bool_decide (key x ≤ key y).
Definition py_eq (x y : A) : bool := bool_decide (key x = key y).

(** *** [bubble_sort] *)

(** The inner loop [for j in range(0, n - i - 1)], [js] being the indices
    still to visit. *)
Fixpoint bubble_pass (js : list nat) (arr : list A) (swapped : bool)
  : option (list A * bool) :=
  match js with
  | [] => Some (arr, swapped)
  | j :: js' =>
      x ← arr !! j;
      y ← arr !! (j + 1)%nat;
      if py_gt x y then
        arr1 ← store arr j y;
        arr2 ← store arr1 (j + 1) x;
        bubble_pass js' arr2 true
      else bubble_pass js' arr swapped
  end.

(** The outer loop [for i in range(n)] with its [break]. *)
Fixpoint bubble_passes (idxs : list nat) (n : nat) (arr : list A)
  : option (list A) :=
  match idxs with
  | [] => Some arr
  | i :: idxs' =>
      match bubble_pass (seq 0 (n - i - 1)) arr false with
      | Some (arr', swapped) =>
          if swapped then bubble_passes idxs' n arr' else Some arr'
      | None => None
      end
  end.

Definition bubble_sort (arr : list A) : option (list A) :=
  let n := length arr in
  bubble_passes (seq 0 n) n arr.

(** What one pass does to the stretch it visits, said on the list
    itself: [x] is the element carried forward, swapped with each smaller
    neighbour. Used to reason about [bubble_pass]. *)
Fixpoint carry (x : A) (l : list A) : list A :=
  match l with
  | [] => [x]
  | y :: l' => if py_gt x y then y :: carry x l' else x :: carry y l'
  end.

(** Whether that pass swaps anything. *)
Fixpoint carry_swaps (x : A) (l : list A) : bool :=
  match l with
  | [] => false
  | y :: l' => if py_gt x y then true else carry_swaps y l'
  end.

(** *** [insertion_sort] *)

(** [while j >= 0 and arr[j] > key: arr[j + 1] = arr[j]; j -= 1].
    [j] reaches -1, so the loop is counted by [j1 = j + 1]; the value of
    [j + 1] at the exit is returned with the list. *)
Fixpoint shift_greater (j1 : nat) (k : A) (arr : list A)
  : option (list A * nat) :=
  match j1 with
  | O => Some (arr, O)
  | S j =>
      x ← arr !! j;
      if py_gt x k then
        arr' ← store arr (S j) x;
        shift_greater j k arr'
      else Some (arr, S j)
  end.

(** The loop [for i in range(1, n)]. *)
Fixpoint insertion_steps (idxs : list nat) (arr : list A) : option (list A) :=
  match idxs with
  | [] => Some arr
  | i :: idxs' =>
      k ← arr !! i;
      match shift_greater i k arr with
      | Some (arr1, j1) =>
          arr2 ← store arr1 j1 k;
          insertion_steps idxs' arr2
      | None => None
      end
  end.

Definition insertion_sort (arr : list A) : option (list A) :=
  let n := length arr in
  insertion_steps (seq 1 (n - 1)) arr.

(** *** [merge_sort] *)

(** The loop of [merge] and the two [extend]s after it; [left_] and
    [right_] are what is left of the two lists, [left[i:]] and [right[j:]]. *)
Equations? merge_loop (left_ right_ result : list A) : list A
  by wf (length left_ + length right_)%nat Nat.lt :=
merge_loop (x :: left') (y :: right') result with py_le x y := {
  | true => merge_loop left' (y :: right') (result ++ [x])
  | false => merge_loop (x :: left') right' (result ++ [y]) };
merge_loop left_ right_ result := result ++ left_ ++ right_.
Proof. all: simpl; lia. Qed.

Definition merge (left_ right_ : list A) : list A := merge_loop left_ right_ [].

Equations? merge_sort (arr : list A) : list A by wf (length arr) Nat.lt :=
merge_sort arr with decide (length arr ≤ 1)%nat := {
  | left _ => arr
  | right _ =>
      let mid := (length arr `div` 2)%nat in
      merge (merge_sort (take mid arr)) (merge_sort (drop mid arr)) }.
Proof.
  all: assert (0 < length arr `div` 2 < length arr)%nat
    by (split; [apply Nat.div_str_pos | apply Nat.div_lt]; lia).
  all: unfold Nat.lt; subst mid; change (Nat.divmod (length arr) 1 0 1).1
    with (length arr `div` 2)%nat.
  - rewrite length_take. lia.
  - rewrite length_drop. lia.
Qed.

(** *** [quick_sort] *)

(** The built-in [sorted]: a stable sort that compares with [<] only. All
    stable sorts return the same list; this one inserts from the left. *)
Fixpoint sorted_insert (x : A) (l : list A) : list A :=
  match l with
  | [] => [x]
  | y :: l' => if py_lt x y then x :: y :: l' else y :: sorted_insert x l'
  end.

Definition sorted (l : list A) : list A :=
  fold_left (λ acc x, sorted_insert x acc) l [].

(** [sorted([arr[0], arr[len(arr)//2], arr[-1]])[1]] *)
Definition median_of_three (arr : list A) : option A :=
  a ← arr !! 0%nat;
  b ← arr !! (length arr `div` 2)%nat;
  c ← last arr;
  sorted [a; b; c] !! 1%nat.

(** The three list comprehensions. *)
Definition less_than (pivot : A) (arr : list A) : list A :=
  List.filter (λ x, py_lt x pivot) arr.
Definition equal_to (pivot : A) (arr : list A) : list A :=
  List.filter (λ x, py_eq x pivot) arr.
Definition greater_than (pivot : A) (arr : list A) : list A :=
  List.filter (λ x, py_gt x pivot) arr.

Lemma median_of_three_elem (arr : list A) (pivot : A) :
  median_of_three arr = Some pivot → pivot ∈ arr.
Proof.
  unfold median_of_three. intros H.
  destruct (arr !! 0%nat) as [a|] eqn:Ha; [|done].
  destruct (arr !! (length arr `div` 2)%nat) as [b|] eqn:Hb; [|done].
  destruct (last arr) as [c|] eqn:Hc; [|done].
  apply list_elem_of_lookup_2 in Ha, Hb.
  rewrite last_lookup in Hc. apply list_elem_of_lookup_2 in Hc.
  simpl in H. unfold sorted in H. simpl in H.
  repeat (destruct (py_lt _ _) in H; simpl in H);
    by injection H as <-.
Qed.

Lemma filter_shorter (p : A → bool) (arr : list A) (x : A) :
  x ∈ arr → p x = false → (length (List.filter p arr) < length arr)%nat.
Proof.
  induction arr as [|y arr IH]; intros Hin Hp.
  - by apply not_elem_of_nil in Hin.
  - simpl. pose proof (List.filter_length_le p arr) as Hle.
    apply elem_of_cons in Hin as [<- | Hin].
    + rewrite Hp. lia.
    + specialize (IH Hin Hp). destruct (p y); simpl; lia.
Qed.

(** The pivot compares equal to an element of the list, so neither
    comprehension sent to a recursive call keeps the whole list. *)
Lemma partitions_shorter (arr : list A) (pivot : A) :
  median_of_three arr = Some pivot →
  (length (less_than pivot arr) < length arr)%nat ∧
  (length (greater_than pivot arr) < length arr)%nat.
Proof.
  intros Hin%median_of_three_elem.
  split; apply (filter_shorter _ _ pivot Hin); unfold py_lt, py_gt;
    apply bool_decide_eq_false; lia.
Qed.

(** [None] is the [IndexError] of the pivot selection. *)
Equations? quick_sort (arr : list A) : option (list A)
  by wf (length arr) Nat.lt :=
quick_sort arr with decide (length arr ≤ 1)%nat := {
  | left _ => Some arr
  | right _ with inspect (median_of_three arr) := {
    | exist _ (Some pivot) Hpivot =>
        match quick_sort (less_than pivot arr),
              quick_sort (greater_than pivot arr) with
        | Some left_, Some right_ =>
            Some (left_ ++ equal_to pivot arr ++ right_)
        | _, _ => None
        end
    | exist _ None _ => None } }.
Proof. all: by apply partitions_shorter in Hpivot as []. Qed.

(** How many of [l] have a key not greater, and not smaller, than that of
    [p]. *)
Definition count_not_greater (p : A) (l : list A) : nat :=
  length (List.filter (λ x, bool_decide (key x ≤ key p)) l).
Definition count_not_smaller (p : A) (l : list A) : nat :=
  length (List.filter (λ x, bool_decide (key p ≤ key x)) l).

End Sorts.

(** Non-descending order of the keys. *)
Definition non_descending {A} (key : A → Z) (l : list A) : Prop :=
  StronglySorted (λ x y, key x ≤ key y) l.

(** Elements that compare equal, with key [k], in the order they have in [l]. *)
Definition with_key {A} (key : A → Z) (k : Z) (l : list A) : list A :=
  List.filter (λ x, bool_decide (key x = k)) l.

(** A sort keeps elements that compare equal in the order of the input. *)
Definition stable {A} (key : A → Z) (input output : list A) : Prop :=
  ∀ k, with_key key k output = with_key key k input.

(** [output] has the elements of [input], each as often, in non-descending
    order. *)
Definition sorts {A} (key : A → Z) (input output : list A) : Prop :=
  output ≡ₚ input ∧ non_descending key output.

End Sorting.

(** * Properties *)

(** ** Python primitives *)

Module PyFacts.
Import Py.

Lemma norm_index_nonneg {A} (l : list A) (i : Z) :
  0 ≤ i →
  norm_index l i = if decide (i < Z.of_nat (length l)) then Some (Z.to_nat i) else None.
Proof.
  intros Hi. unfold norm_index.
  repeat case_match; try done; lia.
Qed.

Lemma getitem_nonneg {A} (l : list A) (i : Z) :
  0 ≤ i → getitem l i = l !! Z.to_nat i.
Proof.
  intros Hi. unfold getitem. rewrite norm_index_nonneg by done.
  case_decide; simpl; [done|].
  symmetry. apply lookup_ge_None. lia.
Qed.

Lemma setitem_nonneg {A} (l : list A) (i : Z) (x : A) :
  0 ≤ i →
  setitem l i x =
    if decide (i < Z.of_nat (length l)) then Some (<[Z.to_nat i := x]> l) else None.
Proof.
  intros Hi. unfold setitem. rewrite norm_index_nonneg by done.
  by case_decide.
Qed.

Lemma setitem_length {A} (l l' : list A) (i : Z) (x : A) :
  setitem l i x = Some l' → length l' = length l.
Proof.
  unfold setitem. destruct (norm_index l i); simpl; [|done].
  intros [= <-]. apply length_insert.
Qed.

Lemma elem_of_range (a b i : Z) : i ∈ range a b ↔ a ≤ i < b.
Proof.
  unfold range. rewrite list_elem_of_fmap. split.
  - intros (k & -> & Hk). apply elem_of_seq in Hk. lia.
  - intros Hi. exists (Z.to_nat (i - a)). split; [lia|].
    apply elem_of_seq. lia.
Qed.

Lemma repeat_list_length {A} (x : A) (n : Z) :
  length (repeat_list x n) = Z.to_nat n.
Proof. apply length_replicate. Qed.

End PyFacts.

(** ** The dynamic array *)

Module DynamicArrayFacts.
Import Py PyFacts DynamicArray.

(** *** Rules of the weakest-precondition calculus *)

Lemma wp_mono {A} (m : M A) (Q Q' : A → t → Prop) (E E' : exn → t → Prop) self :
  wp m Q E self →
  (∀ x s, Q x s → Q' x s) → (∀ e s, E e s → E' e s) →
  wp m Q' E' self.
Proof.
  intros [Hlog H] HQ HE. split; [done|].
  destruct (result (m self)); eauto.
Qed.

Lemma wp_ret {A} (x : A) Q E self : Q x self → wp (ret x) Q E self.
Proof. intros H. split; [constructor | done]. Qed.

Lemma wp_raise {A} (e : exn) (Q : A → t → Prop) E self :
  E e self → wp (raise e) Q E self.
Proof. intros H. split; [constructor | done]. Qed.

Lemma wp_bind {A B} (m : M A) (f : A → M B) Q E self :
  wp m (λ x s, wp (f x) Q E s) E self → wp (bind m f) Q E self.
Proof.
  intros [Hlog H]. unfold wp, bind.
  destruct (result (m self)) as [e|x]; simpl; [done|].
  destruct H as [Hlog' H]. split; [|done].
  by apply Forall_app.
Qed.

Lemma wp_get_size Q E self : Q (_size self) self → wp get_size Q E self.
Proof. intros H. split; [constructor | done]. Qed.

Lemma wp_get_capacity Q E self :
  Q (_capacity self) self → wp get_capacity Q E self.
Proof. intros H. split; [constructor | done]. Qed.

Lemma wp_get_array Q E self : Q (_array self) self → wp get_array Q E self.
Proof. intros H. split; [constructor | done]. Qed.

Lemma wp_set_size n Q E self :
  Q tt (Build (_capacity self) n (_array self)) → wp (set_size n) Q E self.
Proof. intros H. split; [constructor | done]. Qed.

Lemma wp_set_capacity c Q E self :
  Q tt (Build c (_size self) (_array self)) → wp (set_capacity c) Q E self.
Proof. intros H. split; [constructor | done]. Qed.

Lemma wp_set_array a Q E self :
  Q tt (Build (_capacity self) (_size self) a) → wp (set_array a) Q E self.
Proof. intros H. split; [constructor | done]. Qed.

Lemma wp_index_or_raise {A} (o : option A) Q E self :
  match o with Some x => Q x self | None => E IndexError self end →
  wp (index_or_raise o) Q E self.
Proof. destruct o; intros H; split; by try constructor. Qed.

Lemma wp_array_get i Q E self :
  match getitem (_array self) i with
  | Some x => Q x self
  | None => E IndexError self
  end →
  wp (array_get i) Q E self.
Proof.
  intros H. unfold array_get.
  apply wp_bind, wp_get_array. by apply wp_index_or_raise.
Qed.

Lemma wp_array_set i x Q E self :
  match setitem (_array self) i x with
  | Some a => Q tt (Build (_capacity self) (_size self) a)
  | None => E IndexError self
  end →
  wp (array_set i x) Q E self.
Proof.
  intros H. unfold array_set.
  apply wp_bind, wp_get_array, wp_bind, wp_index_or_raise.
  destruct (setitem _ _ _); [|done]. by apply wp_set_array.
Qed.

Lemma wp_note_resize n Q E self :
  _size self ≤ n → Q tt self → wp (note_resize n) Q E self.
Proof. intros Hn H. split; [|done]. by repeat constructor. Qed.

Lemma wp_for_each idxs body (I : t → Prop) Q E self :
  I self →
  (∀ i s, i ∈ idxs → I s → wp (body i) (λ _, I) E s) →
  (∀ s, I s → Q tt s) →
  wp (for_each idxs body) Q E self.
Proof.
  intros HI Hbody HQ. revert self HI Hbody.
  induction idxs as [|i idxs IH]; intros self HI Hbody; simpl.
  - apply wp_ret; auto.
  - apply wp_bind. eapply wp_mono; [apply Hbody; [left|done] | | done].
    intros [] s Hs. apply IH; [done|].
    intros j s' Hj. apply Hbody. by right.
Qed.

Lemma wp_for_fold {B} idxs (body : Z → B → M B) (J : B → t → Prop) Q E b self :
  J b self →
  (∀ i b s, i ∈ idxs → J b s → wp (body i b) J E s) →
  (∀ b s, J b s → Q b s) →
  wp (for_fold idxs body b) Q E self.
Proof.
  intros HJ Hbody HQ. revert b self HJ Hbody.
  induction idxs as [|i idxs IH]; intros b self HJ Hbody; simpl.
  - apply wp_ret; auto.
  - apply wp_bind. eapply wp_mono; [apply Hbody; [left|done] | | done].
    intros b' s Hs. apply IH; [done|].
    intros j b'' s' Hj. apply Hbody. by right.
Qed.

Lemma wp_if {A} (b : bool) (m1 m2 : M A) Q E self :
  (b = true → wp m1 Q E self) → (b = false → wp m2 Q E self) →
  wp (if b then m1 else m2) Q E self.
Proof. destruct b; auto. Qed.

Ltac wp_step :=
  lazymatch goal with
  | |- wp (bind _ _) _ _ _ => apply wp_bind
  | |- wp get_size _ _ _ => apply wp_get_size
  | |- wp __len__ _ _ _ => apply wp_get_size
  | |- wp get_capacity _ _ _ => apply wp_get_capacity
  | |- wp get_array _ _ _ => apply wp_get_array
  | |- wp (set_size _) _ _ _ => apply wp_set_size
  | |- wp (set_capacity _) _ _ _ => apply wp_set_capacity
  | |- wp (set_array _) _ _ _ => apply wp_set_array
  | |- wp (array_get _) _ _ _ => apply wp_array_get
  | |- wp (array_set _ _) _ _ _ => apply wp_array_set
  | |- wp (ret _) _ _ _ => apply wp_ret
  | |- wp (raise _) _ _ _ => apply wp_raise
  end; simpl.

Ltac wp_steps := repeat wp_step.

(** *** The representation invariant *)

Lemma well_formed_size_invariant m self :
  0 ≤ m → well_formed m self → size_invariant self.
Proof. unfold well_formed, size_invariant. lia. Qed.

Lemma init_well_formed c : well_formed (c `min` 1) (__init__ c).
Proof.
  unfold well_formed, __init__; simpl. rewrite repeat_list_length. lia.
Qed.

(** *** The methods, one by one *)

Lemma wp_resize n Q E self :
  0 ≤ _size self → _size self ≤ n →
  (Z.to_nat (_size self) ≤ length (_array self))%nat →
  (∀ a, length a = Z.to_nat n → Q tt (Build n (_size self) a)) →
  wp (_resize n) Q E self.
Proof.
  intros Hsize Hn Hlen HQ. unfold _resize.
  apply wp_bind, wp_note_resize; [done|]. wp_steps.
  apply wp_for_fold with (J := λ b s, s = self ∧ length b = Z.to_nat n).
  - split; [done|]. apply repeat_list_length.
  - intros i b s Hi%elem_of_range [-> Hb]. wp_steps.
    rewrite getitem_nonneg by lia.
    destruct (_array self !! Z.to_nat i) as [x|] eqn:Hx.
    + apply wp_index_or_raise. rewrite setitem_nonneg by lia.
      case_decide; [|lia]. split; [done|]. by rewrite length_insert.
    + apply lookup_ge_None in Hx. lia.
  - intros b s [-> Hb]. wp_steps. by apply HQ.
Qed.

(** The test [if self._size == self._capacity: self._resize(2 * ...)]. *)
Lemma wp_grow m Q E self :
  well_formed m self →
  (∀ s, well_formed m s → _size s = _size self →
        _capacity s =
          (if _size self =? _capacity self then 2 * _capacity self
           else _capacity self) →
        Q tt s) →
  wp (if _size self =? _capacity self
      then _resize (2 * _capacity self) else ret tt) Q E self.
Proof.
  intros (H0 & Hfit & Hlen & Hm) HQ.
  destruct (_size self =? _capacity self) eqn:Heq.
  - apply Z.eqb_eq in Heq. apply wp_resize; [lia..|].
    intros a Ha. apply HQ; [|done..].
    unfold well_formed; simpl. lia.
  - apply wp_ret, HQ; done.
Qed.

Lemma append_spec m v self :
  well_formed m self →
  wp (append v)
    (λ _ s, 1 ≤ _capacity self ∧ well_formed m s ∧
            _size s = _size self + 1 ∧
            _capacity s =
              (if _size self =? _capacity self then 2 * _capacity self
               else _capacity self) ∧
            _array s !! Z.to_nat (_size self) = Some v)
    (λ e s, _capacity self ≤ 0 ∧ well_formed m s ∧ _size s = _size self ∧
            e = IndexError)
    self.
Proof.
  intros Hwf. unfold append. wp_steps.
  apply (wp_grow m); [done|].
  intros s (H0 & Hfit & Hlen & Hm) Hsize Hcap. wp_steps.
  rewrite setitem_nonneg by lia.
  destruct Hwf as (H0' & Hfit' & Hlen' & Hm').
  case_decide as Hlt; wp_steps.
  - split_and!.
    + destruct (_size self =? _capacity self) eqn:Heq; lia.
    + unfold well_formed; simpl. rewrite length_insert. lia.
    + lia.
    + done.
    + rewrite <- Hsize. apply list_lookup_insert_eq. lia.
  - split_and!; try done.
    destruct (_size self =? _capacity self) eqn:Heq; lia.
Qed.

Lemma getitem_spec m index self :
  well_formed m self →
  wp (__getitem__ index)
    (λ x s, s = self ∧ 0 ≤ index < _size self ∧
            _array self !! Z.to_nat index = Some x)
    (λ e s, s = self ∧ ¬ 0 ≤ index < _size self ∧ e = IndexError)
    self.
Proof.
  intros (H0 & Hfit & Hlen & Hm). unfold __getitem__, out_of_range. wp_steps.
  apply wp_if; intros Hb; wp_steps.
  - split_and!; try done. lia.
  - rewrite getitem_nonneg by lia.
    destruct (_array self !! Z.to_nat index) as [x|] eqn:Hx.
    + split_and!; try done; lia.
    + apply lookup_ge_None in Hx. lia.
Qed.

Lemma setitem_spec m index v self :
  well_formed m self →
  wp (__setitem__ index v)
    (λ _ s, well_formed m s ∧ 0 ≤ index < _size self)
    (λ e s, s = self ∧ ¬ 0 ≤ index < _size self ∧ e = IndexError)
    self.
Proof.
  intros (H0 & Hfit & Hlen & Hm). unfold __setitem__, out_of_range. wp_steps.
  apply wp_if; intros Hb; wp_steps.
  - split_and!; try done. lia.
  - rewrite setitem_nonneg by lia.
    case_decide; [|lia]. split; [|lia].
    unfold well_formed; simpl. rewrite length_insert. lia.
Qed.

Lemma insert_spec m index v self :
  well_formed m self →
  wp (insert index v) (λ _, well_formed m) (λ _, well_formed m) self.
Proof.
  intros Hwf. unfold insert. wp_steps.
  apply wp_if; intros Hb; wp_steps; [done|].
  apply negb_false_iff, andb_true_iff in Hb as [Hlo Hhi].
  apply (wp_grow m); [done|].
  intros s (H0 & Hfit & Hlen & Hm) Hsize Hcap. wp_steps.
  destruct Hwf as (H0' & Hfit' & Hlen' & Hm').
  set (I := λ s' : t, _capacity s' = _capacity s ∧ _size s' = _size s ∧
                      length (_array s') = length (_array s)).
  assert (∀ s', I s' → well_formed m s') as HI.
  { intros s' (Hc & Hs & Hl). unfold well_formed. lia. }
  apply wp_for_each with (I := I); [done| |].
  - intros i s' _ Hs'. wp_steps.
    destruct (getitem _ _) as [x|]; wp_steps; [|by apply HI].
    destruct (setitem _ _ _) as [a|] eqn:Ha; [|by apply HI].
    apply setitem_length in Ha. unfold I in *; simpl. lia.
  - intros s' (Hc & Hs & Hl). wp_steps.
    rewrite setitem_nonneg by lia.
    apply Z.leb_le in Hlo, Hhi.
    case_decide as Hlt; wp_steps; unfold well_formed; simpl;
      rewrite ?length_insert;
      destruct (_size self =? _capacity self) eqn:Heq; lia.
Qed.

Lemma quarter_half (c : Z) : 0 < c `div` 4 → c `div` 4 ≤ c `div` 2 ∧ 2 ≤ c `div` 2.
Proof. intros H. Z.div_mod_to_equations. lia. Qed.

Lemma pop_spec m index self :
  m ≤ 1 → well_formed m self →
  wp (pop index)
    (λ x s, well_formed m s ∧ _size s = _size self - 1 ∧
            - _size self ≤ index < _size self ∧
            _array self
              !! Z.to_nat (if index <? 0 then _size self + index else index)
              = Some x)
    (λ e s, s = self ∧ e = IndexError ∧
            ¬ - _size self ≤ index < _size self)
    self.
Proof.
  intros Hm1 (H0 & Hfit & Hlen & Hm). unfold pop, out_of_range. wp_steps.
  apply wp_if; intros Hemp; wp_steps.
  { apply Z.eqb_eq in Hemp. split_and!; [done..|lia]. }
  apply Z.eqb_neq in Hemp.
  set (k := if index <? 0 then _size self + index else index).
  apply wp_if; intros Hb; wp_steps.
  { split_and!; [done..|]. apply negb_true_iff, andb_false_iff in Hb.
    subst k. destruct (index <? 0) eqn:?; lia. }
  apply negb_false_iff, andb_true_iff in Hb as [Hlo%Z.leb_le Hhi%Z.ltb_lt].
  rewrite getitem_nonneg by lia.
  destruct (_array self !! Z.to_nat k) as [x|] eqn:Hx;
    [|apply lookup_ge_None in Hx; lia].
  wp_steps.
  set (I := λ s : t, _capacity s = _capacity self ∧ _size s = _size self ∧
                     length (_array s) = length (_array self)).
  apply wp_for_each with (I := I); [done| |].
  - intros i s Hi%elem_of_range (Hc & Hs & Hl). wp_steps.
    rewrite getitem_nonneg by lia.
    destruct (_array s !! Z.to_nat (i + 1)) as [y|] eqn:Hy;
      [|apply lookup_ge_None in Hy; lia].
    wp_steps. rewrite setitem_nonneg by lia.
    case_decide; [|lia]. unfold I; simpl. by rewrite length_insert.
  - intros s (Hc & Hs & Hl). wp_steps.
    rewrite setitem_nonneg by lia.
    case_decide; [|lia]. wp_steps.
    assert (- _size self ≤ index < _size self) as Hidx
      by (subst k; destruct (index <? 0) eqn:?; lia).
    apply wp_if; intros Hshrink; wp_steps.
    + apply andb_true_iff in Hshrink as [Hpos%Z.ltb_lt Hq%Z.eqb_eq].
      destruct (quarter_half (_capacity s)) as [Hle Hhalf]; [lia|].
      apply wp_resize; simpl; rewrite ?length_insert; [lia..|].
      intros a Ha. wp_steps. split_and!; try done; try lia.
      unfold well_formed; simpl. lia.
    + split_and!; try done; try lia.
      unfold well_formed; simpl. rewrite length_insert. lia.
Qed.

Lemma remove_scan_spec m idxs v self :
  m ≤ 1 → well_formed m self →
  wp (remove_scan idxs v) (λ _, well_formed m) (λ _, well_formed m) self.
Proof.
  intros Hm1 Hwf. induction idxs as [|i idxs IH]; simpl; wp_steps; [done|].
  destruct (getitem _ _) as [x|]; [|done].
  case_decide; [|done]. wp_steps.
  eapply wp_mono; [by apply (pop_spec m)| |]; simpl.
  - intros y s (Hs & _). by wp_steps.
  - by intros e s (-> & _).
Qed.

Lemma remove_spec m v self :
  m ≤ 1 → well_formed m self →
  wp (remove v) (λ _, well_formed m) (λ _, well_formed m) self.
Proof.
  intros Hm1 Hwf. unfold remove. wp_steps. by apply remove_scan_spec.
Qed.

(** Every call keeps the representation invariant, whether it returns or
    raises, and calls [_resize] only with room for the elements. *)
Lemma perform_well_formed m c self :
  m ≤ 1 → well_formed m self →
  wp (perform c) (λ _, well_formed m) (λ _, well_formed m) self.
Proof.
  intros Hm1 Hwf. destruct c; simpl; wp_steps.
  - done.
  - eapply wp_mono; [by apply (getitem_spec m)| |]; simpl.
    + by intros x s [-> _].
    + by intros e s [-> _].
  - eapply wp_mono; [by apply (setitem_spec m)| |]; simpl.
    + intros x s [Hs _]. by wp_steps.
    + by intros e s [-> _].
  - eapply wp_mono; [by apply (append_spec m)| |]; simpl.
    + intros x s (_ & Hs & _). by wp_steps.
    + by intros e s (_ & Hs & _).
  - eapply wp_mono; [by apply (insert_spec m)| |]; simpl.
    + intros x s Hs. by wp_steps.
    + done.
  - eapply wp_mono; [by apply (remove_spec m)| |]; simpl.
    + intros x s Hs. by wp_steps.
    + done.
  - eapply wp_mono; [by apply (pop_spec m)| |]; simpl.
    + by intros x s [Hs _].
    + by intros e s (-> & _).
Qed.

Lemma session_well_formed m cs self :
  m ≤ 1 → well_formed m self →
  well_formed m (session cs self).1 ∧ Forall resize_fits (session cs self).2.
Proof.
  intros Hm1. revert self.
  induction cs as [|c cs IH]; intros self Hwf; simpl.
  - split; [done | constructor].
  - destruct (perform_well_formed m c self Hm1 Hwf) as [Hlog Hres].
    assert (well_formed m (self_after (perform c self))) as Hwf'
      by (destruct (result (perform c self)); done).
    destruct (IH _ Hwf') as [Hfin Hlogs].
    destruct (session cs (self_after (perform c self))) as [s' log].
    simpl in *. split; [done|]. by apply Forall_app.
Qed.

Lemma reachable_well_formed c self :
  reachable_from c self → well_formed (c `min` 1) self.
Proof.
  intros [cs <-]. apply session_well_formed; [lia|]. apply init_well_formed.
Qed.

(** *** The tests of the repository *)

Example test_dynamic_array_initialization :
  let arr := __init__ default_capacity in
  result (__len__ arr) = inr 0 ∧ _capacity arr = 10.
Proof. done. Qed.

Example test_dynamic_array_append :
  let arr := (session [Append (VInt 1); Append (VInt 2); Append (VInt 3)]
                (__init__ default_capacity)).1 in
  result (__len__ arr) = inr 3 ∧
  result (__getitem__ 0 arr) = inr (VInt 1) ∧
  result (__getitem__ 2 arr) = inr (VInt 3).
Proof. done. Qed.

Example test_dynamic_array_resize :
  let arr := (session [Append (VInt 1); Append (VInt 2); Append (VInt 3)]
                (__init__ 2)).1 in
  result (__len__ arr) = inr 3 ∧ _capacity arr = 4.
Proof. done. Qed.

(** *** Construction *)

(** C5, as the code has it: the constructor validates nothing. It stores
    the requested capacity as it is, zero and negative ones too, with no
    element present and a backing list of [max(capacity, 0)] empty slots;
    the capacity of the new array is at least 1 exactly when the requested
    one is. *)
Theorem init_stores_requested_capacity (capacity : Z) :
  _capacity (__init__ capacity) = capacity ∧
  _size (__init__ capacity) = 0 ∧
  elements (__init__ capacity) = [] ∧
  _array (__init__ capacity) = replicate (Z.to_nat capacity) VNone ∧
  (1 ≤ _capacity (__init__ capacity) ↔ 1 ≤ capacity).
Proof. by split_and!. Qed.

(** C5 as stated fails: an array of capacity 0 is constructed. *)
Lemma init_accepts_capacity_zero :
  ¬ constructor_validates 0.
Proof. unfold constructor_validates; simpl. lia. Qed.

(** *** The invariant [0 <= size <= capacity] *)

(** C3, as the code has it: for an array constructed with a capacity that
    is not negative, [0 <= size <= capacity] holds after construction and
    after every call, returning or raising; and whatever the requested
    capacity, [_resize] is never called with a new capacity below the
    size. *)
Theorem size_invariant_maintained (capacity : Z) (cs : list call) :
  (0 ≤ capacity → size_invariant (session cs (__init__ capacity)).1) ∧
  Forall resize_fits (session cs (__init__ capacity)).2.
Proof.
  destruct (session_well_formed (capacity `min` 1) cs (__init__ capacity))
    as [Hwf Hlog]; [lia | apply init_well_formed |].
  split; [|done]. intros Hc.
  apply (well_formed_size_invariant (capacity `min` 1)); [lia | done].
Qed.

Lemma size_invariant_maintained_witness :
  size_invariant
    (session [Append (VInt 1); Append (VInt 2); Append (VInt 3); Pop 7;
              Insert 0 (VInt 4); Remove (VInt 2); Pop (-1); Pop (-1)]
       (__init__ 2)).1.
Proof. apply (size_invariant_maintained 2). lia. Defined.

(** C3 as stated fails right after construction with a negative capacity. *)
Lemma negative_capacity_breaks_size_invariant :
  ¬ size_invariant (session [] (__init__ (-1))).1.
Proof. unfold size_invariant; simpl. lia. Qed.

(** On an array with capacity at least 1, [append] returns. *)
Lemma append_returns v self :
  well_formed 1 self →
  result (append v self) = inr tt ∧
  well_formed 1 (self_after (append v self)) ∧
  _size (self_after (append v self)) = _size self + 1 ∧
  _capacity (self_after (append v self)) =
    (if _size self =? _capacity self then 2 * _capacity self
     else _capacity self) ∧
  _array (self_after (append v self)) !! Z.to_nat (_size self) = Some v.
Proof.
  intros Hwf. destruct (append_spec 1 v self Hwf) as [_ H].
  destruct (result (append v self)) as [e|[]].
  - destruct H as (Hc & _), Hwf as (_ & _ & _ & Hm). lia.
  - by destruct H as (_ & H).
Qed.

(** *** Rejected calls *)

Lemma remove_scan_absent idxs v self :
  (∀ i, i ∈ idxs → ∃ x, getitem (_array self) i = Some x ∧ x ≠ v) →
  remove_scan idxs v self = Outcome self [] (inl ValueError).
Proof.
  induction idxs as [|i idxs IH]; intros Hall; [done|].
  destruct (Hall i) as (x & Hx & Hne); [left|].
  simpl. unfold bind at 1, array_get, bind at 1; simpl.
  rewrite Hx; simpl. rewrite decide_False by done.
  rewrite IH; [done|]. intros j Hj. apply Hall. by right.
Qed.

(** C4: a call of [__getitem__], [__setitem__], [insert] or [pop] with an
    index outside the valid range raises [IndexError] and leaves the
    object as it was, without calling [_resize]; [remove] of a value that
    no stored element equals raises [ValueError] and leaves the object as
    it was. *)
Theorem rejected_calls_leave_array_unchanged (self : t) :
  (∀ index, ¬ 0 ≤ index < _size self →
     __getitem__ index self = Outcome self [] (inl IndexError)) ∧
  (∀ index v, ¬ 0 ≤ index < _size self →
     __setitem__ index v self = Outcome self [] (inl IndexError)) ∧
  (∀ index v, ¬ 0 ≤ index ≤ _size self →
     insert index v self = Outcome self [] (inl IndexError)) ∧
  (∀ index, ¬ - _size self ≤ index < _size self →
     pop index self = Outcome self [] (inl IndexError)) ∧
  (∀ capacity v, reachable_from capacity self → v ∉ elements self →
     remove v self = Outcome self [] (inl ValueError)).
Proof.
  split_and!.
  - intros index Hout. unfold __getitem__, bind, get_size, out_of_range; simpl.
    destruct (0 <=? index) eqn:?, (index <? _size self) eqn:?; simpl;
      try done; lia.
  - intros index v Hout.
    unfold __setitem__, bind, get_size, out_of_range; simpl.
    destruct (0 <=? index) eqn:?, (index <? _size self) eqn:?; simpl;
      try done; lia.
  - intros index v Hout. unfold insert, bind at 1, get_size; simpl.
    destruct (0 <=? index) eqn:?, (index <=? _size self) eqn:?; simpl;
      try done; lia.
  - intros index Hout. unfold pop, bind at 1, get_size, out_of_range; simpl.
    destruct (_size self =? 0) eqn:?; [done|].
    destruct (index <? 0) eqn:?.
    + destruct (0 <=? _size self + index) eqn:?,
        (_size self + index <? _size self) eqn:?; simpl; try done; lia.
    + destruct (0 <=? index) eqn:?, (index <? _size self) eqn:?; simpl;
        try done; lia.
  - intros capacity v (H0 & Hfit & Hlen & Hm)%reachable_well_formed Hv.
    unfold remove, bind at 1, get_size; simpl.
    rewrite remove_scan_absent; [done|]. intros i Hi%elem_of_range.
    rewrite getitem_nonneg by lia.
    destruct (_array self !! Z.to_nat i) as [x|] eqn:Hx;
      [|apply lookup_ge_None in Hx; lia].
    exists x. split; [done|]. intros ->. apply Hv.
    unfold elements. apply list_elem_of_lookup. exists (Z.to_nat i).
    rewrite lookup_take_lt by lia. done.
Qed.

Lemma rejected_calls_leave_array_unchanged_witness :
  let self := (session [Append (VInt 1); Append (VInt 2)] (__init__ 2)).1 in
  __getitem__ 2 self = Outcome self [] (inl IndexError) ∧
  __setitem__ (-1) (VInt 9) self = Outcome self [] (inl IndexError) ∧
  insert 3 (VInt 9) self = Outcome self [] (inl IndexError) ∧
  pop (-3) self = Outcome self [] (inl IndexError) ∧
  remove (VInt 9) self = Outcome self [] (inl ValueError).
Proof.
  intros self.
  destruct (rejected_calls_leave_array_unchanged self)
    as (Hget & Hset & Hins & Hpop & Hrem).
  split_and!.
  - apply Hget. simpl. lia.
  - apply Hset. simpl. lia.
  - apply Hins. simpl. lia.
  - apply Hpop. simpl. lia.
  - apply (Hrem 2).
    + by exists [Append (VInt 1); Append (VInt 2)].
    + vm_compute. intros H. by repeat (apply elem_of_cons in H as [?|H]; [done|]);
        apply not_elem_of_nil in H.
Defined.

(** *** [append] then [pop] *)

(** C6, as the code has it: on an array constructed with capacity at
    least 1, in whatever state later calls have left it, [append(v)] and
    then [pop()] both return, [pop] returns [v], and the length is what it
    was before the [append]. *)
Theorem append_pop_restores_length (capacity : Z) (self : t) (v : value) :
  1 ≤ capacity → reachable_from capacity self →
  append_pop_round_trip self v.
Proof.
  intros Hc Hwf%reachable_well_formed.
  replace (capacity `min` 1) with 1 in Hwf by lia.
  unfold append_pop_round_trip; cbv zeta.
  destruct (append_returns v self Hwf) as (Happ & Hwf1 & Hsize1 & _ & Hlast).
  split; [done|].
  remember (self_after (append v self)) as s1 eqn:Hs1. clear Hs1 Happ.
  destruct (pop_spec 1 (-1) s1 ltac:(lia) Hwf1) as [_ Hpop].
  destruct Hwf as (H0 & _).
  destruct (result (pop (-1) s1)) as [e|x].
  - destruct Hpop as (_ & _ & Hout). lia.
  - destruct Hpop as (_ & Hsize2 & _ & Hx).
    simpl in Hx. rewrite Hsize1 in Hx.
    replace (_size self + 1 + -1) with (_size self) in Hx by lia.
    rewrite Hlast in Hx. injection Hx as <-.
    split; [done | lia].
Qed.

Lemma append_pop_restores_length_witness :
  append_pop_round_trip
    (session [Append (VInt 1); Append (VInt 2); Pop 0] (__init__ 2)).1
    (VInt 7).
Proof.
  apply (append_pop_restores_length 2); [lia|].
  by exists [Append (VInt 1); Append (VInt 2); Pop 0].
Defined.

(** C6 as stated fails on the array constructed with capacity 0: there
    [append] raises. *)
Lemma append_pop_fails_at_capacity_zero :
  reachable_from 0 (__init__ 0) ∧
  ¬ append_pop_round_trip (__init__ 0) (VInt 5).
Proof.
  split; [by exists []|].
  intros (Happ & _). vm_compute in Happ. discriminate.
Qed.

(** *** Growth under [append] *)

Lemma perform_append_after v self :
  self_after (perform (Append v) self) = self_after (append v self).
Proof.
  simpl. unfold bind. by destruct (result (append v self)).
Qed.

Lemma session_cons_fst c cs self :
  (session (c :: cs) self).1 = (session cs (self_after (perform c self))).1.
Proof. simpl. by destruct (session cs _). Qed.

Lemma append_doubled c v self :
  1 ≤ c → well_formed 1 self → doubled c self →
  doubled c (self_after (append v self)).
Proof.
  intros Hc Hwf (m & Hcap & Hmin).
  destruct (append_returns v self Hwf) as (_ & _ & Hsize & Hcap' & _).
  destruct Hwf as (H0 & Hfit & Hlen & Hm).
  destruct (_size self =? _capacity self) eqn:Heq.
  - apply Z.eqb_eq in Heq. exists (S m). split.
    + rewrite Hcap', Hcap, Nat2Z.inj_succ, Z.pow_succ_r; lia.
    + intros m' Hm'. rewrite Hsize, Heq, Hcap.
      assert (2 ^ Z.of_nat m' ≤ 2 ^ Z.of_nat m)
        by (apply Z.pow_le_mono_r; lia).
      nia.
  - exists m. split; [congruence|].
    intros m' Hm'. specialize (Hmin m' Hm'). lia.
Qed.

Lemma session_appends c vs self :
  1 ≤ c → well_formed 1 self → doubled c self →
  let self' := (session (Append <$> vs) self).1 in
  well_formed 1 self' ∧ doubled c self' ∧
  _size self' = _size self + Z.of_nat (length vs).
Proof.
  intros Hc. revert self.
  induction vs as [|v vs IH]; intros self Hwf Hd; cbv zeta.
  - simpl. split_and!; [done..|lia].
  - destruct (append_returns v self Hwf) as (_ & Hwf' & Hsize & _).
    rewrite fmap_cons, session_cons_fst, perform_append_after.
    destruct (IH _ Hwf' (append_doubled c v self Hc Hwf Hd))
      as (Hwf'' & Hd'' & Hsize'').
    split_and!; [done..|]. rewrite Hsize'', Hsize. simpl length. lia.
Qed.

(** C2: after [k] calls of [append] on a new array of capacity [c >= 1],
    the length is [k] and the capacity is the smallest [c * 2^m] that is
    at least [k]. *)
Theorem appends_length_and_capacity (c : Z) (vs : list value) :
  1 ≤ c →
  let self := (session (Append <$> vs) (__init__ c)).1 in
  __len__ self = Outcome self [] (inr (Z.of_nat (length vs))) ∧
  least_doubling c (Z.of_nat (length vs)) (_capacity self).
Proof.
  intros Hc self.
  destruct (session_appends c vs (__init__ c)) as (Hwf & (m & Hcap & Hmin) & Hsize);
    [done| | |].
  { pose proof (init_well_formed c) as H.
    by replace (c `min` 1) with 1 in H by lia. }
  { exists 0%nat. split; [simpl; lia|]. intros m' Hm'. lia. }
  fold self in Hwf, Hcap, Hmin, Hsize. simpl in Hsize.
  split.
  - unfold __len__, get_size. by rewrite Hsize.
  - destruct Hwf as (H0 & Hfit & Hlen & Hm).
    exists m. split_and!; [done|lia|].
    intros m' Hk. rewrite Hcap.
    destruct (decide (m' < m)%nat) as [Hlt|Hge].
    + specialize (Hmin m' Hlt). lia.
    + assert (2 ^ Z.of_nat m ≤ 2 ^ Z.of_nat m')
        by (apply Z.pow_le_mono_r; lia).
      nia.
Qed.

Lemma appends_length_and_capacity_witness :
  let self :=
    (session (Append <$> [VInt 1; VInt 2; VInt 3]) (__init__ 2)).1 in
  __len__ self = Outcome self [] (inr 3) ∧ least_doubling 2 3 (_capacity self).
Proof. apply (appends_length_and_capacity 2 [VInt 1; VInt 2; VInt 3]). lia. Defined.

End DynamicArrayFacts.

(** ** [two_sum] *)

Module SearchFacts.
Import Search.

Lemma tracks_last_empty : tracks_last [] ∅.
Proof. intros v. rewrite lookup_empty. intros k. by rewrite lookup_nil. Qed.

Lemma tracks_last_snoc pre seen num :
  tracks_last pre seen →
  tracks_last (pre ++ [num]) (<[num := length pre]> seen).
Proof.
  intros Hseen v. destruct (decide (num = v)) as [->|Hne].
  - rewrite lookup_insert_eq. split.
    + by rewrite lookup_app_r, Nat.sub_diag by lia.
    + intros k' Hk'. rewrite lookup_ge_None_2; [done|].
      rewrite length_app; simpl. lia.
  - rewrite lookup_insert_ne by done. specialize (Hseen v).
    assert (∀ k, (pre ++ [num]) !! k = Some v → pre !! k = Some v) as Hpre.
    { intros k Hk. apply lookup_app_Some in Hk as [Hk|[_ Hk]]; [done|].
      apply list_lookup_singleton_Some in Hk as [_ ?]. done. }
    destruct (seen !! v) as [k|].
    + destruct Hseen as [Hk Hlast]. split.
      * by apply lookup_app_l_Some.
      * intros k' Hk' Hv. by apply (Hlast k' Hk'), Hpre.
    + intros k Hv. by apply (Hseen k), Hpre.
Qed.

Lemma valid_pair_prefix pre arr target i j :
  valid_pair (pre ++ arr) target i j → (j < length pre)%nat →
  valid_pair pre target i j.
Proof.
  intros (Hij & a & b & Ha & Hb & Hsum) Hj. split; [done|].
  exists a, b. rewrite lookup_app_l in Ha, Hb by lia. done.
Qed.

Lemma no_pair_snoc pre seen num target :
  tracks_last pre seen → no_pair pre target →
  seen !! (target - num) = None →
  no_pair (pre ++ [num]) target.
Proof.
  intros Hseen Hno Hnone i j Hv.
  destruct (decide (j < length pre)%nat) as [Hj|Hj].
  { by apply (Hno i j), (valid_pair_prefix pre [num]). }
  destruct Hv as (Hij & a & b & Ha & Hb & Hsum).
  apply lookup_app_Some in Hb as [Hb|[_ Hb]].
  { apply lookup_lt_Some in Hb. lia. }
  apply list_lookup_singleton_Some in Hb as [Hj0 <-].
  rewrite lookup_app_l in Ha by lia.
  specialize (Hseen (target - num)). rewrite Hnone in Hseen.
  apply (Hseen i). rewrite Ha. f_equal. lia.
Qed.

Example test_two_sum :
  two_sum [2; 7; 11; 15] 9 = Some [0; 1]%nat ∧
  two_sum [2; 7; 11; 15] 26 = Some [2; 3]%nat ∧
  two_sum [2; 7; 11; 15] 100 = None.
Proof. done. Qed.

(** The dictionary built by the assignments is the one of [two_sum_from]
    as long as it has not returned. *)
Lemma seen_after_tracks_last pre seen arr :
  tracks_last pre seen →
  tracks_last (pre ++ arr) (seen_after seen (length pre) arr).
Proof.
  revert pre seen. induction arr as [|num rest IH]; intros pre seen Hseen; simpl.
  - by rewrite app_nil_r.
  - rewrite cons_middle, app_assoc.
    replace (S (length pre)) with (length (pre ++ [num]))
      by (rewrite length_app; simpl; lia).
    by apply IH, tracks_last_snoc.
Qed.

Lemma two_sum_from_spec pre seen arr target :
  tracks_last pre seen → no_pair pre target →
  match two_sum_from seen (length pre) arr target with
  | Some r =>
      ∃ i j, r = [i; j] ∧
        valid_pair (pre ++ arr) target i j ∧
        (∀ i' j', valid_pair (pre ++ arr) target i' j' → (j ≤ j')%nat) ∧
        last_index_of_value_before (pre ++ arr) i j
  | None => no_pair (pre ++ arr) target
  end.
Proof.
  revert pre seen.
  induction arr as [|num rest IH]; intros pre seen Hseen Hno; simpl.
  - by rewrite app_nil_r.
  - destruct (seen !! (target - num)) as [k|] eqn:Hk.
    + pose proof (Hseen (target - num)) as Hlast. rewrite Hk in Hlast.
      destruct Hlast as [Hpk Hlast].
      pose proof (lookup_lt_Some _ _ _ Hpk) as Hlt.
      exists k, (length pre). split_and!; [done| | |].
      * split; [done|]. exists (target - num), num. split_and!; [|by rewrite list_lookup_middle|lia].
        by apply lookup_app_l_Some.
      * intros i' j' Hv. destruct (decide (j' < length pre)%nat) as [Hj|]; [|lia].
        by destruct (Hno i' j'); apply (valid_pair_prefix pre (num :: rest)).
      * exists (target - num). split; [by apply lookup_app_l_Some|].
        intros i' Hi'. rewrite lookup_app_l by lia. apply Hlast. lia.
    + specialize (IH (pre ++ [num]) (<[num := length pre]> seen)
                    (tracks_last_snoc _ _ _ Hseen)
                    (no_pair_snoc _ _ _ _ Hseen Hno Hk)).
      rewrite <- app_assoc in IH. simpl in IH.
      replace (length (pre ++ [num])) with (S (length pre)) in IH
        by (rewrite length_app; simpl; lia).
      done.
Qed.

Lemma two_sum_spec arr target :
  match two_sum arr target with
  | Some r =>
      ∃ i j, r = [i; j] ∧
        valid_pair arr target i j ∧
        (∀ i' j', valid_pair arr target i' j' → (j ≤ j')%nat) ∧
        last_index_of_value_before arr i j
  | None => no_pair arr target
  end.
Proof.
  apply (two_sum_from_spec [] ∅ arr target tracks_last_empty).
  intros i j (_ & a & _ & Ha & _). by rewrite lookup_nil in Ha.
Qed.

Lemma two_sum_from_app pre0 seen pre rest target :
  tracks_last pre0 seen → no_pair (pre0 ++ pre) target →
  two_sum_from seen (length pre0) (pre ++ rest) target =
  two_sum_from (seen_after seen (length pre0) pre)
    (length pre0 + length pre) rest target.
Proof.
  revert pre0 seen.
  induction pre as [|num pre IH]; intros pre0 seen Hseen Hno; simpl.
  - by rewrite Nat.add_0_r.
  - destruct (seen !! (target - num)) as [k|] eqn:Hk.
    + pose proof (Hseen (target - num)) as Hlast. rewrite Hk in Hlast.
      destruct Hlast as [Hpk _].
      pose proof (lookup_lt_Some _ _ _ Hpk) as Hlt.
      destruct (Hno k (length pre0)). split; [done|].
      exists (target - num), num.
      split_and!; [by apply lookup_app_l_Some|by rewrite list_lookup_middle|lia].
    + replace (S (length pre0)) with (length (pre0 ++ [num]))
        by (rewrite length_app; simpl; lia).
      rewrite IH.
      * f_equal. rewrite length_app; simpl. lia.
      * by apply tracks_last_snoc.
      * by rewrite <- app_assoc.
Qed.

Lemma tracks_last_lookup pre seen v k :
  tracks_last pre seen → seen !! v = Some k ↔ last_index_of pre v k.
Proof.
  intros Hseen. specialize (Hseen v). split.
  - intros Hk. by rewrite Hk in Hseen.
  - intros [Hk Hlast]. destruct (seen !! v) as [k'|].
    + destruct Hseen as [Hk' Hlast']. f_equal.
      destruct (Nat.lt_trichotomy k k') as [Hlt|[->|Hlt]]; [|done|].
      * by destruct (Hlast k' Hlt).
      * by destruct (Hlast' k Hlt).
    + by destruct (Hseen k).
Qed.

(** The pair described by the three properties is one pair only. *)
Lemma earliest_pair_unique arr target i j i0 j0 :
  valid_pair arr target i j →
  (∀ i' j', valid_pair arr target i' j' → (j ≤ j')%nat) →
  last_index_of_value_before arr i j →
  valid_pair arr target i0 j0 →
  (∀ i' j', valid_pair arr target i' j' → (j0 ≤ j')%nat) →
  last_index_of_value_before arr i0 j0 →
  i = i0 ∧ j = j0.
Proof.
  intros Hv Hmin Hlast Hv0 Hmin0 Hlast0.
  assert (j = j0) as <-
    by (pose proof (Hmin _ _ Hv0); pose proof (Hmin0 _ _ Hv); lia).
  split; [|done].
  destruct Hv as (Hij & a & b & Ha & Hb & Hsum).
  destruct Hv0 as (Hij0 & a0 & b0 & Ha0 & Hb0 & Hsum0).
  rewrite Hb in Hb0. injection Hb0 as <-.
  assert (a0 = a) as -> by lia.
  destruct Hlast as (a' & Ha' & Hlast). rewrite Ha in Ha'. injection Ha' as <-.
  destruct Hlast0 as (a' & Ha' & Hlast0). rewrite Ha0 in Ha'. injection Ha' as <-.
  destruct (Nat.lt_trichotomy i i0) as [Hlt|[->|Hlt]]; [|done|].
  - by destruct (Hlast i0 ltac:(lia)).
  - by destruct (Hlast0 i ltac:(lia)).
Qed.

(** C1, as the code has it: [two_sum] passes over the list once, keeping
    a dictionary from each value met so far to the LAST position it was
    met at (the assignment [seen[num] = i] overwrites). When the
    complement of the current element is in the dictionary it returns
    [[seen[complement], i]]. It returns a pair whenever two positions add
    up to the target, and the pair [[i, j]] it returns is the one with
    [i < j] and [arr[i] + arr[j] == target] whose second index is the
    smallest among all valid pairs and whose first index is the last
    position before [j] at which that value occurs. *)
Theorem two_sum_returns_earliest_pair (arr : list Z) (target : Z) :
  (∀ pre rest, arr = pre ++ rest → no_pair pre target →
     two_sum arr target =
       two_sum_from (seen_after ∅ 0 pre) (length pre) rest target ∧
     ∀ v k, seen_after ∅ 0 pre !! v = Some k ↔ last_index_of pre v k) ∧
  (∀ pre num rest k, arr = pre ++ num :: rest → no_pair pre target →
     seen_after ∅ 0 pre !! (target - num) = Some k →
     two_sum arr target = Some [k; length pre]) ∧
  ((∃ i' j', valid_pair arr target i' j') →
   ∃ i j, two_sum arr target = Some [i; j]) ∧
  (∀ i j, two_sum arr target = Some [i; j] ↔
     valid_pair arr target i j ∧
     (∀ i' j', valid_pair arr target i' j' → (j ≤ j')%nat) ∧
     last_index_of_value_before arr i j).
Proof.
  assert (∀ i j, two_sum arr target = Some [i; j] →
     valid_pair arr target i j ∧
     (∀ i' j', valid_pair arr target i' j' → (j ≤ j')%nat) ∧
     last_index_of_value_before arr i j) as Hsound.
  { intros i j Hr. pose proof (two_sum_spec arr target) as H.
    rewrite Hr in H. destruct H as (i0 & j0 & [= -> ->] & H). done. }
  assert ((∃ i' j', valid_pair arr target i' j') →
          ∃ i j, two_sum arr target = Some [i; j]) as Hfound.
  { intros (i' & j' & Hv). pose proof (two_sum_spec arr target) as H.
    destruct (two_sum arr target) as [r|].
    - destruct H as (i & j & -> & _). by exists i, j.
    - by destruct (H i' j'). }
  split_and!.
  - intros pre rest -> Hno. split.
    + apply (two_sum_from_app [] ∅ pre rest target tracks_last_empty Hno).
    + intros v k. apply tracks_last_lookup.
      apply (seen_after_tracks_last [] ∅ pre tracks_last_empty).
  - intros pre num rest k -> Hno Hk.
    pose proof (two_sum_from_app [] ∅ pre (num :: rest) target
                  tracks_last_empty Hno) as Hrun.
    cbn [length Nat.add two_sum_from] in Hrun. rewrite Hk in Hrun.
    exact Hrun.
  - done.
  - intros i j. split; [apply Hsound|].
    intros (Hv & Hmin & Hlast).
    destruct Hfound as (i0 & j0 & Hr); [by exists i, j|].
    destruct (Hsound _ _ Hr) as (Hv0 & Hmin0 & Hlast0).
    by destruct (earliest_pair_unique arr target i j i0 j0) as [-> ->].
Qed.

Lemma two_sum_returns_earliest_pair_witness :
  (∃ i j, two_sum [1; 1; 3; 3] 4 = Some [i; j]) ∧
  two_sum [1; 1; 3; 3] 4 = Some [1; 2]%nat ∧
  valid_pair [1; 1; 3; 3] 4 1 2 ∧
  (∀ i' j', valid_pair [1; 1; 3; 3] 4 i' j' → (2 ≤ j')%nat) ∧
  last_index_of_value_before [1; 1; 3; 3] 1 2.
Proof.
  destruct (two_sum_returns_earliest_pair [1; 1; 3; 3] 4)
    as (_ & Hmatch & Hfound & Hiff).
  destruct (proj1 (Hiff 1%nat 2%nat) eq_refl) as (Hv & Hmin & Hlast).
  split_and!.
  - apply Hfound. exists 1%nat, 2%nat. split; [lia|]. by exists 1, 3.
  - apply (Hmatch [1; 1] 3 [3] 1%nat); [done| |done].
    intros i j (Hij & a & b & Ha & Hb & Hsum).
    destruct i as [|[|i]], j as [|[|j]]; simpl in *; try lia;
      try discriminate.
    injection Ha as <-. injection Hb as <-. lia.
  - exact Hv.
  - exact Hmin.
  - exact Hlast.
Defined.

(** C1 as stated fails: on [[1, 1, 3]] with target 4 the pair returned is
    [[1, 2]], and position 1 is not the first one holding the value 1. *)
Lemma two_sum_keeps_last_index :
  ¬ returns_first_index_pair [1; 1; 3] 4.
Proof.
  intros H. destruct (H 1%nat 2%nat) as (_ & _ & a & Ha & Hfirst); [done|].
  injection Ha as <-. by apply (Hfirst 0%nat); [lia|].
Qed.

(** C9: a returned pair [[i, j]] has [i < j] and
    [arr[i] + arr[j] == target]; when the target is twice a value that is
    at one position only, that position is in no returned pair; and
    [two_sum([5], 10)] is [None]. *)
Theorem two_sum_pair_is_sound :
  (∀ arr target r, two_sum arr target = Some r →
     ∃ i j, r = [i; j] ∧ (i < j)%nat ∧
       ∃ a b, arr !! i = Some a ∧ arr !! j = Some b ∧ a + b = target) ∧
  (∀ arr v i j, occurs_once arr v → two_sum arr (2 * v) = Some [i; j] →
     arr !! i ≠ Some v ∧ arr !! j ≠ Some v) ∧
  two_sum [5] 10 = None.
Proof.
  assert (∀ arr target r, two_sum arr target = Some r →
     ∃ i j, r = [i; j] ∧ (i < j)%nat ∧
       ∃ a b, arr !! i = Some a ∧ arr !! j = Some b ∧ a + b = target) as Hsound.
  { intros arr target r Hr. pose proof (two_sum_spec arr target) as H.
    rewrite Hr in H. destruct H as (i & j & -> & [Hij Hab] & _). eauto. }
  split_and!; [done| |done].
  intros arr v i j (p & Hp & Honce) Hr.
  destruct (Hsound _ _ _ Hr) as (i0 & j0 & [= <- <-] & Hij & a & b & Ha & Hb & Hsum).
  split; intros Hv.
  - assert (b = v) as -> by (rewrite Ha in Hv; injection Hv as ->; lia).
    rewrite Hv in Ha. injection Ha as <-.
    pose proof (Honce i Hv). pose proof (Honce j Hb). lia.
  - assert (a = v) as -> by (rewrite Hb in Hv; injection Hv as ->; lia).
    pose proof (Honce i Ha). pose proof (Honce j Hv). lia.
Qed.

Lemma two_sum_pair_is_sound_witness :
  (∃ i j, [0; 1]%nat = [i; j] ∧ (i < j)%nat ∧
     ∃ a b, [2; 7; 11; 15] !! i = Some a ∧ [2; 7; 11; 15] !! j = Some b ∧
            a + b = 9) ∧
  ([3; 5; 7] !! 0%nat ≠ Some 5 ∧ [3; 5; 7] !! 2%nat ≠ Some 5).
Proof.
  destruct two_sum_pair_is_sound as (Hsound & Honce & _). split.
  - apply (Hsound [2; 7; 11; 15] 9). reflexivity.
  - apply (Honce [3; 5; 7] 5).
    + exists 1%nat. split; [done|].
      by intros [|[|[|j]]] Hj.
    + reflexivity.
Defined.

End SearchFacts.

(** ** Sorting *)

Module SortingFacts.
Import Sorting.

Section SortsFacts.
Context {A : Type} (key : A → Z).

#[local] Abbreviation nd := (non_descending key).
#[local] Abbreviation wk := (with_key key).

(** *** Order, keys and permutations *)

Lemma nd_nil : nd [].
Proof. constructor. Qed.

Lemma nd_singleton x : nd [x].
Proof. by repeat constructor. Qed.

Lemma nd_cons x l :
  nd (x :: l) ↔ (∀ y, y ∈ l → key x ≤ key y) ∧ nd l.
Proof.
  unfold non_descending. rewrite StronglySorted_cons, Forall_forall. done.
Qed.

Lemma nd_app l1 l2 :
  nd (l1 ++ l2) ↔
    (∀ x y, x ∈ l1 → y ∈ l2 → key x ≤ key y) ∧ nd l1 ∧ nd l2.
Proof. apply StronglySorted_app. Qed.

Lemma wk_app k l1 l2 : wk k (l1 ++ l2) = wk k l1 ++ wk k l2.
Proof. apply List.filter_app. Qed.

Lemma wk_cons k x l :
  wk k (x :: l) = if bool_decide (key x = k) then x :: wk k l else wk k l.
Proof. done. Qed.

Lemma wk_none k l : (∀ x, x ∈ l → key x ≠ k) → wk k l = [].
Proof.
  induction l as [|x l IH]; intros H; [done|].
  rewrite wk_cons, bool_decide_eq_false_2 by (apply H; left).
  apply IH. intros y Hy. apply H. by right.
Qed.

(** *** [merge] *)

Lemma merge_loop_acc l r acc :
  merge_loop key l r acc = acc ++ merge key l r.
Proof.
  unfold merge.
  remember (length l + length r)%nat as n eqn:Hn.
  revert l r acc Hn. induction (lt_wf n) as [n _ IH]; intros l r acc ->.
  assert (∀ l' r' acc',
            (length l' + length r' < length l + length r)%nat →
            merge_loop key l' r' acc' = acc' ++ merge_loop key l' r' [])
    as IH' by (intros l' r' acc' Hlt; by apply (IH _ Hlt)).
  destruct l as [|x l], r as [|y r]; simp merge_loop; try done.
  destruct (py_le key x y); simpl.
  - rewrite (IH' l (y :: r) (acc ++ [x])), (IH' l (y :: r) [x])
      by (simpl; lia).
    by rewrite <- app_assoc.
  - rewrite (IH' (x :: l) r (acc ++ [y])), (IH' (x :: l) r [y])
      by (simpl; lia).
    by rewrite <- app_assoc.
Qed.

Lemma merge_nil_l r : merge key [] r = r.
Proof. unfold merge. by simp merge_loop. Qed.

Lemma merge_nil_r l : merge key l [] = l.
Proof. unfold merge. destruct l; simp merge_loop; simpl; by rewrite ?app_nil_r. Qed.

Lemma merge_cons x l y r :
  merge key (x :: l) (y :: r) =
    if py_le key x y then x :: merge key l (y :: r)
    else y :: merge key (x :: l) r.
Proof.
  unfold merge at 1. simp merge_loop.
  destruct (py_le key x y); simpl; by rewrite merge_loop_acc.
Qed.

Lemma merge_perm l r : merge key l r ≡ₚ l ++ r.
Proof.
  revert r. induction l as [|x l IHl]; intros r.
  - by rewrite merge_nil_l.
  - induction r as [|y r IHr].
    + by rewrite merge_nil_r, app_nil_r.
    + rewrite merge_cons. destruct (py_le key x y).
      * simpl. by rewrite IHl.
      * rewrite IHr. apply Permutation_middle.
Qed.

Lemma merge_nd l r : nd l → nd r → nd (merge key l r).
Proof.
  revert r. induction l as [|x l IHl]; intros r Hl Hr.
  - by rewrite merge_nil_l.
  - induction r as [|y r IHr].
    + by rewrite merge_nil_r.
    + rewrite merge_cons. unfold py_le.
      apply nd_cons in Hl as Hl'. destruct Hl' as [Hxl Hl'].
      apply nd_cons in Hr as Hr'. destruct Hr' as [Hyr Hr'].
      case_bool_decide as Hxy.
      * apply nd_cons. split; [|by apply IHl].
        intros z Hz. rewrite merge_perm in Hz.
        apply elem_of_app in Hz as [Hz|Hz]; [by apply Hxl|].
        apply elem_of_cons in Hz as [->|Hz]; [done|].
        specialize (Hyr z Hz). lia.
      * apply nd_cons. split; [|by apply IHr].
        intros z Hz. rewrite merge_perm in Hz.
        apply elem_of_app in Hz as [Hz|Hz]; [|by apply Hyr].
        apply elem_of_cons in Hz as [->|Hz]; [lia|].
        specialize (Hxl z Hz). lia.
Qed.

(** Ties go to the left list, so the elements with one key come out as
    those of [l] followed by those of [r]. *)
Lemma merge_wk k l r : nd l → wk k (merge key l r) = wk k l ++ wk k r.
Proof.
  revert r. induction l as [|x l IHl]; intros r Hl.
  - by rewrite merge_nil_l.
  - induction r as [|y r IHr].
    + by rewrite merge_nil_r, app_nil_r.
    + rewrite merge_cons. unfold py_le.
      apply nd_cons in Hl as Hl'. destruct Hl' as [Hxl Hl'].
      case_bool_decide as Hxy.
      * rewrite !wk_cons, IHl by done. by case_bool_decide.
      * rewrite wk_cons, IHr. rewrite (wk_cons k y r).
        case_bool_decide as Hy; [|done].
        rewrite (wk_none k (x :: l)); [done|].
        intros z [->|Hz]%elem_of_cons; [lia|].
        specialize (Hxl z Hz). lia.
Qed.

(** *** [merge_sort] *)

Lemma nd_short l : (length l ≤ 1)%nat → nd l.
Proof.
  destruct l as [|x [|y l]]; simpl; intros H;
    [apply nd_nil | apply nd_singleton | lia].
Qed.

Lemma merge_sort_correct arr :
  sorts key arr (merge_sort key arr) ∧ stable key arr (merge_sort key arr).
Proof.
  funelim (merge_sort key arr).
  - split; [split; [done | by apply nd_short] | done].
  - set (mid := (length arr `div` 2)%nat) in *.
    match goal with
    | IHl : sorts _ (take _ _) _ ∧ _, IHr : sorts _ (drop _ _) _ ∧ _ |- _ =>
        destruct IHl as [[Hpl Hnl] Hsl], IHr as [[Hpr Hnr] Hsr]
    end.
    split; [split|].
    + by rewrite merge_perm, Hpl, Hpr, take_drop.
    + by apply merge_nd.
    + intros k. rewrite merge_wk, Hsl, Hsr, <- wk_app, take_drop by done. done.
Qed.

(** *** [quick_sort] *)

Lemma sorted_insert_length x l :
  length (sorted_insert key x l) = S (length l).
Proof.
  induction l as [|y l IH]; simpl; [done|].
  destruct (py_lt key x y); simpl; by rewrite ?IH.
Qed.

Lemma sorted_length l : length (sorted key l) = length l.
Proof.
  unfold sorted. change (length l) with (length (@nil A) + length l)%nat.
  generalize (@nil A) as acc.
  induction l as [|x l IH]; intros acc; simpl; [lia|].
  rewrite IH, sorted_insert_length. lia.
Qed.

(** On a list that is not empty the pivot selection finds its three
    elements. *)
Lemma median_of_three_is_Some arr :
  arr ≠ [] → is_Some (median_of_three key arr).
Proof.
  intros Hne. unfold median_of_three.
  assert (0 < length arr)%nat as Hlen by (destruct arr; [done | simpl; lia]).
  destruct (lookup_lt_is_Some_2 arr 0%nat Hlen) as [a ->].
  destruct (lookup_lt_is_Some_2 arr (length arr `div` 2)%nat) as [b ->];
    [apply Nat.div_lt; lia|].
  destruct (last arr) as [c|] eqn:Hc; [|by apply last_None in Hc].
  simpl. apply lookup_lt_is_Some_2. rewrite sorted_length. simpl. lia.
Qed.

Lemma partition_perm pivot arr :
  less_than key pivot arr ++ equal_to key pivot arr ++ greater_than key pivot arr
  ≡ₚ arr.
Proof.
  unfold less_than, equal_to, greater_than, py_lt, py_eq, py_gt.
  induction arr as [|x arr IH]; [done|]. simpl.
  repeat case_bool_decide; try lia; simpl.
  - by rewrite IH.
  - by rewrite <- Permutation_middle, IH.
  - by rewrite <- !Permutation_middle, IH.
Qed.

Lemma elem_of_less_than pivot arr x :
  x ∈ less_than key pivot arr ↔ x ∈ arr ∧ key x < key pivot.
Proof.
  unfold less_than, py_lt. rewrite !list_elem_of_In, List.filter_In.
  by rewrite bool_decide_eq_true.
Qed.

Lemma elem_of_equal_to pivot arr x :
  x ∈ equal_to key pivot arr ↔ x ∈ arr ∧ key x = key pivot.
Proof.
  unfold equal_to, py_eq. rewrite !list_elem_of_In, List.filter_In.
  by rewrite bool_decide_eq_true.
Qed.

Lemma elem_of_greater_than pivot arr x :
  x ∈ greater_than key pivot arr ↔ x ∈ arr ∧ key x > key pivot.
Proof.
  unfold greater_than, py_gt. rewrite !list_elem_of_In, List.filter_In.
  by rewrite bool_decide_eq_true.
Qed.

Lemma nd_same_key k l : (∀ x, x ∈ l → key x = k) → nd l.
Proof.
  induction l as [|x l IH]; intros H; [apply nd_nil|].
  apply nd_cons. split.
  - intros y Hy. rewrite (H x), (H y); [lia|by right|by left].
  - apply IH. intros y Hy. apply H. by right.
Qed.

Lemma quick_sort_correct arr :
  ∃ out, quick_sort key arr = Some out ∧ sorts key arr out.
Proof.
  funelim (quick_sort key arr).
  - exists arr. split; [done|]. split; [done | by apply nd_short].
  - match goal with
    | IHl : ∃ _, quick_sort _ (less_than _ _ _) = _ ∧ _,
      IHr : list A → ∃ _, quick_sort _ (greater_than _ _ _) = _ ∧ _ |- _ =>
        destruct IHl as (outl & -> & Hpl & Hnl);
        destruct (IHr []) as (outr & -> & Hpr & Hnr)
    end.
    eexists. split; [done|]. split.
    + rewrite Hpl, Hpr. apply partition_perm.
    + apply nd_app. split_and!; [|done|].
      * intros x y Hx Hy. rewrite Hpl in Hx.
        apply elem_of_less_than in Hx as [_ Hx].
        apply elem_of_app in Hy as [Hy|Hy].
        -- apply elem_of_equal_to in Hy as [_ Hy]. lia.
        -- rewrite Hpr in Hy. apply elem_of_greater_than in Hy as [_ Hy]. lia.
      * apply nd_app. split_and!; [| |done].
        -- intros x y Hx Hy. rewrite Hpr in Hy.
           apply elem_of_equal_to in Hx as [_ Hx].
           apply elem_of_greater_than in Hy as [_ Hy]. lia.
        -- apply (nd_same_key (key pivot)).
           intros x Hx. by apply elem_of_equal_to in Hx as [_ Hx].
  - match goal with
    | Hn : ¬ (length arr ≤ 1)%nat, Hnone : median_of_three _ arr = None |- _ =>
        destruct (median_of_three_is_Some arr) as [p Hp];
        [intros ->; simpl in Hn; lia | congruence]
    end.
Qed.

(** *** In-place list updates *)

Lemma store_middle (p : list A) h t x :
  store (p ++ h :: t) (length p) x = Some (p ++ x :: t).
Proof.
  unfold store. rewrite decide_True by (rewrite length_app; simpl; lia).
  f_equal. replace (length p) with (length p + 0)%nat at 1 by lia.
  by rewrite insert_app_r.
Qed.

(** *** [insertion_sort] *)

(** The inner loop, started below a sorted prefix [p] with a free slot
    [h] after it: the elements greater than [k] at the end of [p] move one
    slot to the right, and the free slot ends just before them. *)
Lemma shift_greater_spec p h q k :
  nd p →
  ∃ p1 p2 h',
    p = p1 ++ p2 ∧
    shift_greater key (length p) k (p ++ h :: q)
      = Some (p1 ++ h' :: p2 ++ q, length p1) ∧
    (∀ y, y ∈ p2 → key y > key k) ∧
    (∀ y, y ∈ p1 → key y ≤ key k).
Proof.
  revert h q. induction p as [|x p IH] using rev_ind; intros h q Hp.
  - exists [], [], h. split_and!; [done..| |]; by intros y Hy%not_elem_of_nil.
  - apply nd_app in Hp as (Hle & Hp & _).
    assert (shift_greater key (length (p ++ [x])) k ((p ++ [x]) ++ h :: q) =
            if py_gt key x k
            then shift_greater key (length p) k (p ++ x :: x :: q)
            else Some ((p ++ [x]) ++ h :: q, length (p ++ [x]))) as Hstep.
    { rewrite length_app, Nat.add_1_r. simpl.
      rewrite <- app_assoc. simpl. rewrite list_lookup_middle by done. simpl.
      destruct (py_gt key x k); [|done].
      replace (S (length p)) with (length (p ++ [x]))
        by (rewrite length_app; simpl; lia).
      rewrite (cons_middle x p), app_assoc, store_middle, <- app_assoc.
      done. }
    rewrite Hstep. unfold py_gt. case_bool_decide as Hgt.
    + destruct (IH x (x :: q) Hp) as (p1 & p2 & h' & -> & -> & Hp2 & Hp1).
      exists p1, (p2 ++ [x]), h'. split_and!.
      * by rewrite app_assoc.
      * by rewrite <- !app_assoc.
      * intros y [Hy|Hy%list_elem_of_singleton]%elem_of_app;
          [by apply Hp2 | by subst y].
      * done.
    + exists (p ++ [x]), [], h. split_and!.
      * by rewrite app_nil_r.
      * done.
      * by intros y Hy%not_elem_of_nil.
      * intros y [Hy|Hy%list_elem_of_singleton]%elem_of_app; [|subst y; lia].
        specialize (Hle y x Hy ltac:(by left)). lia.
Qed.

(** One round of the outer loop puts the next element [k] in its place in
    the sorted prefix. *)
Lemma insertion_step p k rest :
  nd p →
  ∃ p',
    (∀ idxs, insertion_steps key (length p :: idxs) (p ++ k :: rest)
             = insertion_steps key idxs (p' ++ rest)) ∧
    length p' = S (length p) ∧ nd p' ∧ p' ≡ₚ p ++ [k] ∧
    stable key (p ++ [k]) p'.
Proof.
  intros Hp.
  destruct (shift_greater_spec p k rest k Hp)
    as (p1 & p2 & h' & -> & Hshift & Hp2 & Hp1).
  exists (p1 ++ k :: p2). split_and!.
  - intros idxs. simpl. rewrite list_lookup_middle by done. simpl.
    rewrite Hshift, store_middle. simpl. by rewrite <- app_assoc.
  - rewrite !length_app. simpl. lia.
  - apply nd_app in Hp as (Hle & Hn1 & Hn2).
    apply nd_app. split_and!; [|done|].
    + intros x y Hx [->|Hy]%elem_of_cons; [by apply Hp1 | by apply Hle].
    + apply nd_cons. split; [|done].
      intros y Hy. specialize (Hp2 y Hy). lia.
  - rewrite <- Permutation_middle. apply Permutation_cons_append.
  - intros j. rewrite !wk_app, !wk_cons. simpl.
    case_bool_decide as Hk; [|by rewrite app_nil_r].
    rewrite (wk_none j p2); [by rewrite app_nil_r|].
    intros y Hy. specialize (Hp2 y Hy). lia.
Qed.

Lemma insertion_steps_spec p rest :
  nd p →
  ∃ out,
    insertion_steps key (seq (length p) (length rest)) (p ++ rest) = Some out ∧
    sorts key (p ++ rest) out ∧ stable key (p ++ rest) out.
Proof.
  revert p. induction rest as [|k rest IH]; intros p Hp.
  - exists p. rewrite app_nil_r. simpl. by split_and!.
  - destruct (insertion_step p k rest Hp) as (p' & Hstep & Hlen & Hp' & Hperm & Hst).
    destruct (IH p' Hp') as (out & Hout & [Hoperm Hosorted] & Host).
    exists out. cbn [length seq]. rewrite Hstep, <- Hlen, Hout.
    assert (p ++ k :: rest = (p ++ [k]) ++ rest) as -> by by rewrite <- app_assoc.
    split_and!; [done| |].
    + split; [by rewrite Hoperm, Hperm | done].
    + intros j. by rewrite Host, (wk_app j p'), Hst, <- wk_app.
Qed.

Lemma insertion_sort_correct arr :
  ∃ out, insertion_sort key arr = Some out ∧
         sorts key arr out ∧ stable key arr out.
Proof.
  unfold insertion_sort. destruct arr as [|x rest].
  - exists []. by repeat split; try apply nd_nil.
  - simpl length. replace (S (length rest) - 1)%nat with (length rest) by lia.
    apply (insertion_steps_spec [x] rest), nd_singleton.
Qed.

(** *** [bubble_sort] *)

(** The inner loop over the indices of [x :: t], after [d]: it is the
    pass [carry], and the flag tells whether it swapped. *)
Lemma bubble_pass_spec d x t rest swapped :
  bubble_pass key (seq (length d) (length t)) (d ++ x :: t ++ rest) swapped
  = Some (d ++ carry key x t ++ rest, swapped || carry_swaps key x t).
Proof.
  revert d x swapped. induction t as [|y t IH]; intros d x swapped.
  - simpl. by rewrite orb_false_r.
  - cbn [length seq bubble_pass carry carry_swaps].
    rewrite (list_lookup_middle d _ x (length d)) by done.
    cbn [mbind option_bind].
    replace (d ++ x :: (y :: t) ++ rest) with ((d ++ [x]) ++ y :: t ++ rest)
      by by rewrite <- app_assoc.
    replace (length d + 1)%nat with (length (d ++ [x]))
      by (rewrite length_app; simpl; lia).
    rewrite (list_lookup_middle (d ++ [x]) _ y (length (d ++ [x]))) by done.
    cbn [mbind option_bind].
    destruct (py_gt key x y).
    + rewrite <- app_assoc. cbn [app].
      rewrite store_middle. cbn [mbind option_bind].
      replace (d ++ y :: y :: t ++ rest) with ((d ++ [y]) ++ y :: t ++ rest)
        by by rewrite <- app_assoc.
      replace (length (d ++ [x])) with (length (d ++ [y]))
        by (rewrite !length_app; simpl; lia).
      rewrite store_middle. cbn [mbind option_bind].
      replace (S (length d)) with (length (d ++ [y]))
        by (rewrite length_app; simpl; lia).
      rewrite IH, orb_true_r, <- app_assoc. done.
    + replace (S (length d)) with (length (d ++ [x]))
        by (rewrite length_app; simpl; lia).
      rewrite IH, <- app_assoc. done.
Qed.

Lemma carry_perm x t : carry key x t ≡ₚ x :: t.
Proof.
  revert x. induction t as [|y t IH]; intros x; simpl; [done|].
  destruct (py_gt key x y).
  - rewrite IH. apply perm_swap.
  - by rewrite IH.
Qed.

(** A swap exchanges two elements with different keys. *)
Lemma carry_wk k x t : wk k (carry key x t) = wk k (x :: t).
Proof.
  revert x. induction t as [|y t IH]; intros x; [done|].
  simpl carry. unfold py_gt. case_bool_decide as Hgt.
  - rewrite wk_cons, IH, !wk_cons.
    repeat case_bool_decide; try done; lia.
  - by rewrite wk_cons, IH, (wk_cons k x).
Qed.

(** After a pass the greatest element of the stretch is its last. *)
Lemma carry_max x t :
  ∃ init m, carry key x t = init ++ [m] ∧ length init = length t ∧
            key x ≤ key m ∧ ∀ y, y ∈ init → key y ≤ key m.
Proof.
  revert x. induction t as [|y t IH]; intros x.
  - exists [], x. split_and!; [done..|lia|]. by intros y Hy%not_elem_of_nil.
  - simpl carry. unfold py_gt. case_bool_decide as Hgt.
    + destruct (IH x) as (init & m & -> & Hlen & Hxm & Hmax).
      exists (y :: init), m. split_and!; [done|simpl; lia|lia|].
      intros z [->|Hz]%elem_of_cons; [lia | by apply Hmax].
    + destruct (IH y) as (init & m & -> & Hlen & Hym & Hmax).
      exists (x :: init), m. split_and!; [done|simpl; lia|lia|].
      intros z [->|Hz]%elem_of_cons; [lia | by apply Hmax].
Qed.

(** A pass without a swap went over a sorted stretch and left it alone. *)
Lemma carry_no_swap x t :
  carry_swaps key x t = false → carry key x t = x :: t ∧ nd (x :: t).
Proof.
  revert x. induction t as [|y t IH]; intros x; simpl.
  - intros _. split; [done | apply nd_singleton].
  - unfold py_gt. case_bool_decide as Hgt; [done|]. intros Hsw.
    destruct (IH y Hsw) as [-> Hnd]. split; [done|].
    apply nd_cons. split; [|done].
    intros z [->|Hz]%elem_of_cons; [lia|].
    apply nd_cons in Hnd as [Hy _]. specialize (Hy z Hz). lia.
Qed.

(** The outer loop, entered at pass [length suf] with the greatest
    elements already in order at the end. *)
Lemma bubble_passes_spec pre suf :
  nd suf → (∀ a b, a ∈ pre → b ∈ suf → key a ≤ key b) →
  ∃ out,
    bubble_passes key (seq (length suf) (length pre))
      (length pre + length suf) (pre ++ suf) = Some out ∧
    sorts key (pre ++ suf) out ∧ stable key (pre ++ suf) out.
Proof.
  remember (length pre) as n eqn:Hn.
  revert pre suf Hn. induction n as [|n IH]; intros pre suf Hn Hsuf Hcross.
  - destruct pre; [|done]. exists suf. simpl. by split_and!.
  - destruct pre as [|x t]; [done|]. injection Hn as Hn.
    cbn [seq bubble_passes].
    replace (S n + length suf - length suf - 1)%nat with (length t) by lia.
    pose proof (bubble_pass_spec [] x t suf false) as Hpass.
    cbn [length app orb] in Hpass. cbn [app]. rewrite Hpass.
    destruct (carry_swaps key x t) eqn:Hsw.
    + destruct (carry_max x t) as (init & m & Hcarry & Hlen & _ & Hmax).
      rewrite Hcarry, <- app_assoc. cbn [app].
      assert (init ++ [m] ≡ₚ x :: t) as Hperm
        by (rewrite <- Hcarry; apply carry_perm).
      assert (m ∈ x :: t) as Hm
        by (rewrite <- Hperm; apply elem_of_app; right; by left).
      destruct (IH init (m :: suf)) as (out & Hout & [Hoperm Hond] & Host).
      * lia.
      * apply nd_cons. split; [|done]. intros b Hb. by apply Hcross.
      * intros a b Ha [->|Hb]%elem_of_cons; [by apply Hmax|].
        apply Hcross; [|done]. rewrite <- Hperm. apply elem_of_app. by left.
      * exists out. split_and!.
        -- rewrite <- Hout. f_equal. simpl. lia.
        -- split; [|done]. rewrite Hoperm.
           change (init ++ m :: suf) with (init ++ [m] ++ suf).
           by rewrite app_assoc, Hperm.
        -- intros k. rewrite Host.
           change (init ++ m :: suf) with (init ++ [m] ++ suf).
           change (x :: t ++ suf) with ((x :: t) ++ suf).
           rewrite app_assoc, <- Hcarry, !wk_app, carry_wk. done.
    + destruct (carry_no_swap x t Hsw) as [-> Hnd].
      exists ((x :: t) ++ suf). split_and!; [done| |done].
      split; [done|]. apply nd_app. by split_and!.
Qed.

Lemma bubble_sort_correct arr :
  ∃ out, bubble_sort key arr = Some out ∧
         sorts key arr out ∧ stable key arr out.
Proof.
  unfold bubble_sort.
  destruct (bubble_passes_spec arr [] nd_nil) as (out & Hout & Hsorts & Hst).
  { by intros a b _ Hb%not_elem_of_nil. }
  rewrite app_nil_r in *. simpl in Hout. rewrite Nat.add_0_r in Hout.
  by exists out.
Qed.

(** *** The four sorts *)

(** C7: each of [bubble_sort], [insertion_sort], [merge_sort] and
    [quick_sort] returns, on every list, a list with the same elements,
    each as often as in the input, in non-descending order. *)
Theorem sorts_return_sorted_permutation (s : list A) :
  (∃ out, bubble_sort key s = Some out ∧ sorts key s out) ∧
  (∃ out, insertion_sort key s = Some out ∧ sorts key s out) ∧
  sorts key s (merge_sort key s) ∧
  (∃ out, quick_sort key s = Some out ∧ sorts key s out).
Proof.
  split_and!.
  - destruct (bubble_sort_correct s) as (out & ? & ? & _). eauto.
  - destruct (insertion_sort_correct s) as (out & ? & ? & _). eauto.
  - apply merge_sort_correct.
  - apply quick_sort_correct.
Qed.

(** C8: [bubble_sort], [insertion_sort] and [merge_sort] are stable: the
    elements that compare equal come out in the order they had in the
    input. *)
Theorem stable_sorts_keep_equal_elements_in_order (s : list A) :
  (∃ out, bubble_sort key s = Some out ∧ stable key s out) ∧
  (∃ out, insertion_sort key s = Some out ∧ stable key s out) ∧
  stable key s (merge_sort key s).
Proof.
  split_and!.
  - destruct (bubble_sort_correct s) as (out & ? & _ & ?). eauto.
  - destruct (insertion_sort_correct s) as (out & ? & _ & ?). eauto.
  - apply merge_sort_correct.
Qed.

(** C10: [quick_sort] returns on every list. On a list of two elements
    or more the pivot is an element of the list, so the list of the
    elements equal to it is not empty, both lists passed to the recursive
    calls are strictly shorter, and the result is made of theirs. *)
Theorem quick_sort_terminates (arr : list A) :
  (∃ out, quick_sort key arr = Some out) ∧
  ((1 < length arr)%nat →
   ∃ pivot,
     median_of_three key arr = Some pivot ∧
     pivot ∈ arr ∧
     equal_to key pivot arr ≠ [] ∧
     (length (less_than key pivot arr) < length arr)%nat ∧
     (length (greater_than key pivot arr) < length arr)%nat ∧
     quick_sort key arr =
       match quick_sort key (less_than key pivot arr),
             quick_sort key (greater_than key pivot arr) with
       | Some left_, Some right_ =>
           Some (left_ ++ equal_to key pivot arr ++ right_)
       | _, _ => None
       end).
Proof.
  split.
  { destruct (quick_sort_correct arr) as (out & ? & _). eauto. }
  funelim (quick_sort key arr); intros Hlen.
  - lia.
  - match goal with
    | Hp : median_of_three key arr = Some ?p |- _ =>
        exists p; pose proof (median_of_three_elem key arr p Hp) as Hin;
        destruct (partitions_shorter key arr p Hp) as [Hl Hg]
    end.
    split_and!; try done.
    intros Hnil.
    match goal with
    | Hin : ?p ∈ arr |- _ =>
        assert (p ∈ equal_to key p arr) as Hmid
          by (by apply elem_of_equal_to)
    end.
    rewrite Hnil in Hmid. by apply not_elem_of_nil in Hmid.
  - match goal with
    | Hnone : median_of_three _ arr = None |- _ =>
        destruct (median_of_three_is_Some arr) as [p Hp];
        [intros ->; simpl in Hlen; lia | congruence]
    end.
Qed.

End SortsFacts.

Lemma quick_sort_terminates_witness :
  let arr : list Z := [3; 1; 2] in
  ∃ pivot,
    median_of_three id arr = Some pivot ∧
    pivot ∈ arr ∧
    equal_to id pivot arr ≠ [] ∧
    (length (less_than id pivot arr) < length arr)%nat ∧
    (length (greater_than id pivot arr) < length arr)%nat ∧
    quick_sort id arr =
      match quick_sort id (less_than id pivot arr),
            quick_sort id (greater_than id pivot arr) with
      | Some left_, Some right_ =>
          Some (left_ ++ equal_to id pivot arr ++ right_)
      | _, _ => None
      end.
Proof. intros arr. apply (quick_sort_terminates id arr). simpl. lia. Defined.

End SortingFacts.

(** ** [binary_search], and more on [two_sum] *)

Module SearchMoreFacts.
Import Py PyFacts Search SearchFacts.

(** [two_sum] answers [None] exactly when no two different positions of
    the list hold values that add up to the target; in particular on the
    empty list and on a list of one element. *)
Theorem two_sum_none_iff_no_pair (arr : list Z) (target : Z) :
  two_sum arr target = None ↔ no_pair arr target.
Proof.
  pose proof (two_sum_spec arr target) as H. split.
  - intros Hnone. by rewrite Hnone in H.
  - intros Hno. destruct (two_sum arr target) as [r|]; [|done].
    destruct H as (i & j & _ & Hv & _). by destruct (Hno i j).
Qed.

Lemma sorted_lookup_le (arr : list Z) (i j : nat) (a b : Z) :
  StronglySorted Z.le arr → (i ≤ j)%nat →
  arr !! i = Some a → arr !! j = Some b → a ≤ b.
Proof.
  intros Hs. revert i j. induction Hs as [|x arr Hs IH Hx]; intros i j Hij Ha Hb.
  - by rewrite lookup_nil in Ha.
  - destruct i as [|i], j as [|j]; simpl in *; try lia.
    + injection Ha as <-. injection Hb as <-. lia.
    + injection Ha as <-. rewrite Forall_forall in Hx.
      apply Hx. by apply list_elem_of_lookup_2 in Hb.
    + apply (IH i j); [lia|done..].
Qed.

(** The loop between two bounds inside the list: it does not raise, an
    index it returns holds the target, and on a sorted list the answer
    [-1] means that the target is nowhere between the bounds. *)
Lemma binary_search_loop_spec arr target l r :
  0 ≤ l → r < Z.of_nat (length arr) →
  ∃ res, binary_search_loop arr target l r = Some res ∧
    (res = -1 ∨ (l ≤ res ≤ r ∧ arr !! Z.to_nat res = Some target)) ∧
    (StronglySorted Z.le arr → res = -1 →
     ∀ i, l ≤ Z.of_nat i ≤ r → arr !! i ≠ Some target).
Proof.
  funelim (binary_search_loop arr target l r); intros Hl Hr.
  - clear Heq Heqcall.
    set (mid := left_ + (right_ - left_) `div` 2) in *.
    assert (left_ ≤ mid ≤ right_) as Hmid.
    { subst mid.
      assert (0 ≤ (right_ - left_) `div` 2 ≤ right_ - left_)
        by (split; [apply Z.div_pos | apply Z.div_le_upper_bound]; lia).
      lia. }
    rewrite getitem_nonneg by lia.
    destruct (arr !! Z.to_nat mid) as [x|] eqn:Hx;
      [|apply lookup_ge_None in Hx; lia].
    destruct (x =? target) eqn:Heq; [|destruct (x <? target) eqn:Hlt].
    + apply Z.eqb_eq in Heq as ->. exists mid. split_and!; [done| |lia].
      right. split; [lia | done].
    + apply Z.ltb_lt in Hlt.
      match goal with
      | IH : Z → 0 ≤ mid + 1 → _ |- _ =>
          destruct (IH 0) as (res & -> & Hsound & Hcomp); [lia..|]
      end.
      exists res. split_and!; [done| |].
      * destruct Hsound as [->|[? ?]]; [by left | right; split; [lia|done]].
      * intros Hs Hres i Hi Hti.
        destruct (decide (Z.of_nat i ≤ mid)) as [Hle|Hgt].
        -- pose proof (sorted_lookup_le arr i (Z.to_nat mid) target x Hs
                         ltac:(lia) Hti Hx). lia.
        -- apply (Hcomp Hs Hres i); [lia | done].
    + apply Z.ltb_ge in Hlt. apply Z.eqb_neq in Heq.
      match goal with
      | IH : Z → 0 ≤ left_ → mid - 1 < _ → _ |- _ =>
          destruct (IH 0) as (res & -> & Hsound & Hcomp); [lia..|]
      end.
      exists res. split_and!; [done| |].
      * destruct Hsound as [->|[? ?]]; [by left | right; split; [lia|done]].
      * intros Hs Hres i Hi Hti.
        destruct (decide (mid ≤ Z.of_nat i)) as [Hle|Hgt].
        -- pose proof (sorted_lookup_le arr (Z.to_nat mid) i x target Hs
                         ltac:(lia) Hx Hti). lia.
        -- apply (Hcomp Hs Hres i); [lia | done].
  - exists (-1). split_and!; [done | by left |]. intros _ _ i Hi. lia.
Qed.

(** [binary_search] never raises. On every list, sorted or not, the
    answer is [-1] or a position of the list that holds the target. *)
Theorem binary_search_answer_holds_target (arr : list Z) (target : Z) :
  ∃ res, binary_search arr target = Some res ∧
    (res = -1 ∨
     (0 ≤ res < Z.of_nat (length arr) ∧ arr !! Z.to_nat res = Some target)).
Proof.
  destruct (binary_search_loop_spec arr target 0 (Z.of_nat (length arr) - 1))
    as (res & Hres & Hsound & _); [lia..|].
  exists res. split; [done|].
  destruct Hsound as [->|[? ?]]; [by left | right; split; [lia|done]].
Qed.

(** On a list in non-descending order [binary_search] finds the target
    whenever it is there: the answer is [-1] exactly when no element equals
    the target. *)
Theorem binary_search_finds_target_in_sorted (arr : list Z) (target : Z) :
  StronglySorted Z.le arr →
  binary_search arr target = Some (-1) ↔ target ∉ arr.
Proof.
  intros Hs.
  destruct (binary_search_loop_spec arr target 0 (Z.of_nat (length arr) - 1))
    as (res & Hres & Hsound & Hcomp); [lia..|].
  unfold binary_search. rewrite Hres. split.
  - intros [= ->] (i & Hi)%list_elem_of_lookup_1.
    apply (Hcomp Hs eq_refl i); [|done].
    apply lookup_lt_Some in Hi. lia.
  - intros Hnot. destruct Hsound as [->|[_ Hin]]; [done|].
    destruct Hnot. by apply list_elem_of_lookup_2 in Hin.
Qed.

Lemma binary_search_finds_target_in_sorted_witness :
  binary_search [1; 3; 5; 7; 9; 11; 13] 10 = Some (-1) ↔
  10 ∉ [1; 3; 5; 7; 9; 11; 13].
Proof.
  apply binary_search_finds_target_in_sorted.
  repeat (constructor; [|repeat constructor; lia]). constructor.
Defined.

Example test_binary_search :
  binary_search [1; 3; 5; 7; 9; 11; 13] 7 = Some 3 ∧
  binary_search [1; 3; 5; 7; 9; 11; 13] 1 = Some 0 ∧
  binary_search [1; 3; 5; 7; 9; 11; 13] 13 = Some 6 ∧
  binary_search [1; 3; 5; 7; 9; 11; 13] 10 = Some (-1).
Proof. done. Qed.

End SearchMoreFacts.

(** ** More on the sorts *)

Module SortingMoreFacts.
Import Sorting SortingFacts.

Section MoreSortsFacts.
Context {A : Type} (key : A → Z).

#[local] Abbreviation nd := (non_descending key).
#[local] Abbreviation wk := (with_key key).

Lemma elem_of_wk k l z : z ∈ wk k l ↔ z ∈ l ∧ key z = k.
Proof.
  unfold with_key. rewrite !list_elem_of_In, List.filter_In.
  by rewrite bool_decide_eq_true.
Qed.

(** *** One sorted and stable answer *)

(** Two lists in non-descending order with the same elements under every
    key, in the same order, are the same list. *)
Lemma nd_stable_unique l1 l2 :
  nd l1 → nd l2 → (∀ k, wk k l1 = wk k l2) → l1 = l2.
Proof.
  revert l2. induction l1 as [|x l1 IH]; intros l2 H1 H2 Hwk.
  - destruct l2 as [|y l2]; [done|].
    specialize (Hwk (key y)). rewrite wk_cons, bool_decide_eq_true_2 in Hwk by done.
    done.
  - destruct l2 as [|y l2].
    { specialize (Hwk (key x)).
      rewrite wk_cons, bool_decide_eq_true_2 in Hwk by done. done. }
    apply nd_cons in H1 as [Hx H1]. apply nd_cons in H2 as [Hy H2].
    assert (key x = key y) as Hxy.
    { assert (key y ≤ key x).
      { assert (x ∈ wk (key x) (y :: l2)) as Hin
          by (rewrite <- Hwk; apply elem_of_wk; split; [by left | done]).
        apply elem_of_wk in Hin as [[->|Hin]%elem_of_cons _]; [lia|].
        by apply Hy. }
      assert (key x ≤ key y).
      { assert (y ∈ wk (key y) (x :: l1)) as Hin
          by (rewrite Hwk; apply elem_of_wk; split; [by left | done]).
        apply elem_of_wk in Hin as [[->|Hin]%elem_of_cons _]; [lia|].
        by apply Hx. }
      lia. }
    pose proof (Hwk (key x)) as Hhead.
    rewrite !wk_cons, <- Hxy, !bool_decide_eq_true_2 in Hhead by done.
    injection Hhead as <- Htail.
    f_equal. apply IH; [done..|].
    intros k. destruct (decide (key x = k)) as [<-|Hk]; [done|].
    specialize (Hwk k). by rewrite !wk_cons, !bool_decide_eq_false_2 in Hwk.
Qed.

(** *** [quick_sort] keeps the order of equal elements *)

Lemma wk_filter_all k (p : A → bool) l :
  (∀ x, x ∈ l → key x = k → p x = true) → wk k (List.filter p l) = wk k l.
Proof.
  induction l as [|x l IH]; intros Hp; [done|]. cbn [List.filter].
  assert (wk k (List.filter p l) = wk k l) as IH'
    by (apply IH; intros y Hy; apply Hp; by right).
  destruct (p x) eqn:Hpx.
  - by rewrite !wk_cons, IH'.
  - rewrite wk_cons, IH'. case_bool_decide as Hk; [|done].
    rewrite Hp in Hpx; [done | by left | done].
Qed.

Lemma wk_filter_none k (p : A → bool) l :
  (∀ x, x ∈ l → key x = k → p x = false) → wk k (List.filter p l) = [].
Proof.
  intros Hp. apply wk_none. intros x Hx Hk.
  apply list_elem_of_In, List.filter_In in Hx as [Hx Hpx].
  rewrite Hp in Hpx; [done | by apply list_elem_of_In | done].
Qed.

(** The three comprehensions split the elements of each key without
    changing their order. *)
Lemma partition_wk k pivot arr :
  wk k (less_than key pivot arr) ++ wk k (equal_to key pivot arr) ++
  wk k (greater_than key pivot arr) = wk k arr.
Proof.
  unfold less_than, equal_to, greater_than, py_lt, py_eq, py_gt.
  destruct (Z.lt_trichotomy k (key pivot)) as [Hlt|[Heq|Hgt]].
  - rewrite wk_filter_all, !wk_filter_none, !app_nil_r; [done|..];
      intros x _ Hx; by (apply bool_decide_eq_false; lia)
                      || (apply bool_decide_eq_true; lia).
  - rewrite (wk_filter_none k (λ x, bool_decide (key x < key pivot))),
      wk_filter_all, wk_filter_none, app_nil_r; [done|..];
      intros x _ Hx; by (apply bool_decide_eq_false; lia)
                      || (apply bool_decide_eq_true; lia).
  - rewrite (wk_filter_none k (λ x, bool_decide (key x < key pivot))),
      (wk_filter_none k (λ x, bool_decide (key x = key pivot))),
      wk_filter_all; [done|..];
      intros x _ Hx; by (apply bool_decide_eq_false; lia)
                      || (apply bool_decide_eq_true; lia).
Qed.

Lemma quick_sort_stable arr :
  ∃ out, quick_sort key arr = Some out ∧ stable key arr out.
Proof.
  funelim (quick_sort key arr).
  - by exists arr.
  - match goal with
    | IHl : ∃ _, quick_sort _ (less_than _ _ _) = _ ∧ _,
      IHr : list A → ∃ _, quick_sort _ (greater_than _ _ _) = _ ∧ _ |- _ =>
        destruct IHl as (outl & -> & Hsl);
        destruct (IHr []) as (outr & -> & Hsr)
    end.
    eexists. split; [done|]. intros k.
    rewrite !wk_app, Hsl, Hsr. apply partition_wk.
  - match goal with
    | Hn : ¬ (length arr ≤ 1)%nat, Hnone : median_of_three _ arr = None |- _ =>
        destruct (median_of_three_is_Some key arr) as [p Hp];
        [intros ->; simpl in Hn; lia | congruence]
    end.
Qed.

(** [quick_sort], as written with three comprehensions, is stable too:
    elements that compare equal come out in the order of the input. *)
Theorem quick_sort_keeps_equal_elements_in_order (arr : list A) :
  ∃ out, quick_sort key arr = Some out ∧ stable key arr out.
Proof. apply quick_sort_stable. Qed.

(** *** The four sorts are one function *)

Lemma all_sorts_equal (s : list A) :
  bubble_sort key s = Some (merge_sort key s) ∧
  insertion_sort key s = Some (merge_sort key s) ∧
  quick_sort key s = Some (merge_sort key s).
Proof.
  destruct (merge_sort_correct key s) as [[_ Hmn] Hms].
  destruct (bubble_sort_correct key s) as (b & -> & [_ Hbn] & Hbs).
  destruct (insertion_sort_correct key s) as (i & -> & [_ Hin] & His).
  destruct (quick_sort_correct key s) as (q & Hq & [_ Hqn]).
  destruct (quick_sort_stable s) as (q' & Hq' & Hqs).
  rewrite Hq in Hq'. injection Hq' as <-. rewrite Hq.
  split_and!; f_equal; apply nd_stable_unique; try done;
    intros k; by rewrite Hms.
Qed.

(** On every list the four sorts return the same list. *)
Theorem sorts_agree (s : list A) :
  bubble_sort key s = Some (merge_sort key s) ∧
  insertion_sort key s = Some (merge_sort key s) ∧
  quick_sort key s = Some (merge_sort key s).
Proof. apply all_sorts_equal. Qed.

Lemma sorted_input_fixed (s : list A) :
  non_descending key s →
  bubble_sort key s = Some s ∧
  insertion_sort key s = Some s ∧
  merge_sort key s = s ∧
  quick_sort key s = Some s.
Proof.
  intros Hs.
  assert (merge_sort key s = s) as Hm.
  { destruct (merge_sort_correct key s) as [[_ Hmn] Hms].
    by apply nd_stable_unique. }
  destruct (all_sorts_equal s) as (-> & -> & ->). by rewrite Hm.
Qed.

(** A list already in non-descending order is returned as it is by each
    of the four sorts; so are the empty list and the lists of one
    element. *)
Theorem sorted_input_is_returned (s : list A) :
  non_descending key s →
  bubble_sort key s = Some s ∧
  insertion_sort key s = Some s ∧
  merge_sort key s = s ∧
  quick_sort key s = Some s.
Proof. apply sorted_input_fixed. Qed.

(** Sorting twice is sorting once, for each of the four sorts. *)
Theorem sorts_are_idempotent (s : list A) :
  (∃ out, bubble_sort key s = Some out ∧ bubble_sort key out = Some out) ∧
  (∃ out, insertion_sort key s = Some out ∧
          insertion_sort key out = Some out) ∧
  merge_sort key (merge_sort key s) = merge_sort key s ∧
  (∃ out, quick_sort key s = Some out ∧ quick_sort key out = Some out).
Proof.
  destruct (merge_sort_correct key s) as [[_ Hmn] _].
  destruct (all_sorts_equal s) as (Hb & Hi & Hq).
  destruct (sorted_input_fixed (merge_sort key s) Hmn)
    as (Hb' & Hi' & Hm' & Hq').
  split_and!; eauto.
Qed.

(** *** [merge] *)

(** [merge] returns the elements of its two arguments, whatever they are;
    on two lists in non-descending order the result is in non-descending
    order, and among elements that compare equal those of [left] come
    first, each group in its own order. *)
Theorem merge_merges (l r : list A) :
  merge key l r ≡ₚ l ++ r ∧
  (non_descending key l → non_descending key r →
   non_descending key (merge key l r) ∧
   ∀ k, with_key key k (merge key l r) = with_key key k l ++ with_key key k r).
Proof.
  split; [apply merge_perm|]. intros Hl Hr.
  split; [by apply merge_nd|]. intros k. by apply merge_wk.
Qed.

(** *** The pivot *)

(** On a list that is not empty the pivot is one of the first, the middle
    and the last element, and it is their median: two of the three are not
    greater than it and two of them are not smaller. *)
Theorem pivot_is_median_of_three (arr : list A) :
  arr ≠ [] →
  ∃ a b c pivot,
    arr !! 0%nat = Some a ∧
    arr !! (length arr `div` 2)%nat = Some b ∧
    last arr = Some c ∧
    median_of_three key arr = Some pivot ∧
    pivot ∈ [a; b; c] ∧
    (2 ≤ count_not_greater key pivot [a; b; c])%nat ∧
    (2 ≤ count_not_smaller key pivot [a; b; c])%nat.
Proof.
  intros Hne. unfold count_not_greater, count_not_smaller.
  assert (0 < length arr)%nat as Hlen by (destruct arr; [done | simpl; lia]).
  destruct (lookup_lt_is_Some_2 arr 0%nat Hlen) as [a Ha].
  destruct (lookup_lt_is_Some_2 arr (length arr `div` 2)%nat) as [b Hb];
    [apply Nat.div_lt; lia|].
  destruct (last arr) as [c|] eqn:Hc; [|by apply last_None in Hc].
  unfold median_of_three. rewrite Ha, Hb, Hc. cbn [mbind option_bind].
  exists a, b, c. unfold sorted; cbn [fold_left sorted_insert]. unfold py_lt.
  repeat (case_bool_decide; cbn [sorted_insert]; unfold py_lt);
    eexists;
    (split_and!;
     [done | done | done | simpl; reflexivity | set_solver
     | cbn [List.filter]; repeat case_bool_decide; simpl; lia
     | cbn [List.filter]; repeat case_bool_decide; simpl; lia]).
Qed.

End MoreSortsFacts.

Lemma sorted_input_is_returned_witness :
  let s : list Z := [1; 2; 2; 5] in
  bubble_sort id s = Some s ∧
  insertion_sort id s = Some s ∧
  merge_sort id s = s ∧
  quick_sort id s = Some s.
Proof.
  intros s. apply (sorted_input_is_returned id s).
  repeat (constructor; [|repeat constructor; simpl; lia]). constructor.
Defined.

Lemma merge_merges_witness :
  let l : list Z := [1; 4] in
  let r : list Z := [2; 4; 6] in
  non_descending id (merge id l r) ∧
  ∀ k, with_key id k (merge id l r) = with_key id k l ++ with_key id k r.
Proof.
  intros l r. apply (merge_merges id l r);
    repeat (constructor; [|repeat constructor; simpl; lia]); constructor.
Defined.

Lemma pivot_is_median_of_three_witness :
  let arr : list Z := [3; 1; 2] in
  ∃ a b c pivot,
    arr !! 0%nat = Some a ∧
    arr !! (length arr `div` 2)%nat = Some b ∧
    last arr = Some c ∧
    median_of_three id arr = Some pivot ∧
    pivot ∈ [a; b; c] ∧
    (2 ≤ count_not_greater id pivot [a; b; c])%nat ∧
    (2 ≤ count_not_smaller id pivot [a; b; c])%nat.
Proof. intros arr. by apply (pivot_is_median_of_three id arr). Defined.

End SortingMoreFacts.

(** ** The contents of the dynamic array *)

Module DynamicArrayContents.
Import Py PyFacts DynamicArray DynamicArrayFacts.

(** *** Lists and ranges *)

Lemma getitem_middle {A} (p : list A) x t :
  getitem (p ++ x :: t) (Z.of_nat (length p)) = Some x.
Proof.
  rewrite getitem_nonneg, Nat2Z.id by lia. by apply list_lookup_middle.
Qed.

Lemma setitem_middle {A} (p : list A) h t x :
  setitem (p ++ h :: t) (Z.of_nat (length p)) x = Some (p ++ x :: t).
Proof.
  rewrite setitem_nonneg by lia.
  rewrite decide_True by (rewrite length_app; simpl; lia).
  f_equal. rewrite Nat2Z.id.
  replace (length p) with (length p + 0)%nat at 1 by lia.
  by rewrite insert_app_r.
Qed.

Lemma range_cons (a b : Z) : a < b → range a b = a :: range (a + 1) b.
Proof.
  intros Hab. unfold range.
  replace (Z.to_nat (b - a)) with (S (Z.to_nat (b - (a + 1)))) by lia.
  cbn [seq fmap list_fmap]. f_equal; [lia|].
  rewrite <- fmap_S_seq, <- list_fmap_compose.
  apply list_fmap_ext. intros _ k _. simpl. lia.
Qed.

Lemma range_nil (a b : Z) : b ≤ a → range a b = [].
Proof.
  intros Hab. unfold range. by replace (Z.to_nat (b - a)) with 0%nat by lia.
Qed.

Lemma range_down_cons (a b : Z) :
  b < a → range_down a b = a :: range_down (a - 1) b.
Proof.
  intros Hab. unfold range_down.
  replace (Z.to_nat (a - b)) with (S (Z.to_nat (a - 1 - b))) by lia.
  cbn [seq fmap list_fmap]. f_equal; [lia|].
  rewrite <- fmap_S_seq, <- list_fmap_compose.
  apply list_fmap_ext. intros _ k _. simpl. lia.
Qed.

Lemma range_down_nil (a b : Z) : a ≤ b → range_down a b = [].
Proof.
  intros Hab. unfold range_down.
  by replace (Z.to_nat (a - b)) with 0%nat by lia.
Qed.

(** *** The three loops over the backing list *)

(** The loop of [insert]: the elements [q] after the insertion point move
    one slot to the right, into the free slot [h]. *)
Lemma wp_shift_right (p q : list value) h junk Q E c n :
  (∀ h', Q tt (Build c n (p ++ h' :: q ++ junk))) →
  wp (for_each
        (range_down (Z.of_nat (length p + length q)) (Z.of_nat (length p)))
        (λ i, bind (array_get (i - 1)) (λ x, array_set i x)))
     Q E (Build c n (p ++ q ++ h :: junk)).
Proof.
  revert h junk Q. induction q as [|x q IH] using rev_ind; intros h junk Q HQ.
  - rewrite range_down_nil by (simpl; lia). apply wp_ret, HQ.
  - rewrite range_down_cons by (rewrite length_app; simpl; lia).
    cbn [for_each]. wp_steps.
    replace (p ++ (q ++ [x]) ++ h :: junk) with ((p ++ q) ++ x :: h :: junk)
      by by rewrite <- !app_assoc.
    replace (Z.of_nat (length p + length (q ++ [x])) - 1)
      with (Z.of_nat (length (p ++ q)))
      by (rewrite !length_app; simpl; lia).
    rewrite getitem_middle. wp_steps.
    replace ((p ++ q) ++ x :: h :: junk) with ((p ++ q ++ [x]) ++ h :: junk)
      by by rewrite <- !app_assoc.
    replace (Z.of_nat (length p + length (q ++ [x])))
      with (Z.of_nat (length (p ++ q ++ [x])))
      by (rewrite !length_app; simpl; lia).
    rewrite setitem_middle. wp_steps.
    replace ((p ++ q ++ [x]) ++ x :: junk) with (p ++ q ++ x :: x :: junk)
      by by rewrite <- !app_assoc.
    rewrite (length_app p q).
    apply IH. intros h'.
    replace (p ++ h' :: q ++ x :: junk) with (p ++ h' :: (q ++ [x]) ++ junk)
      by by rewrite <- !app_assoc.
    apply HQ.
Qed.

(** The loop of [pop]: the elements [q] after the popped one move one slot
    to the left, over it; the last slot they leave keeps a copy. *)
Lemma wp_shift_left (p : list value) x q junk Q E c n :
  (∀ z, Q tt (Build c n (p ++ q ++ z :: junk))) →
  wp (for_each
        (range (Z.of_nat (length p)) (Z.of_nat (length p + length q)))
        (λ i, bind (array_get (i + 1)) (λ y, array_set i y)))
     Q E (Build c n (p ++ x :: q ++ junk)).
Proof.
  revert p x Q. induction q as [|y q IH]; intros p x Q HQ.
  - rewrite range_nil by (simpl; lia). apply wp_ret, (HQ x).
  - rewrite range_cons by (simpl; lia).
    cbn [for_each]. wp_steps.
    replace (p ++ x :: y :: q ++ junk) with ((p ++ [x]) ++ y :: q ++ junk)
      by by rewrite <- !app_assoc.
    replace (Z.of_nat (length p) + 1) with (Z.of_nat (length (p ++ [x])))
      by (rewrite !length_app; simpl; lia).
    rewrite getitem_middle. wp_steps.
    replace ((p ++ [x]) ++ y :: q ++ junk) with (p ++ x :: y :: q ++ junk)
      by by rewrite <- !app_assoc.
    rewrite setitem_middle. wp_steps.
    replace (p ++ y :: y :: q ++ junk) with ((p ++ [y]) ++ y :: q ++ junk)
      by by rewrite <- !app_assoc.
    replace (Z.of_nat (length (p ++ [x])))
      with (Z.of_nat (length (p ++ [y])))
      by (rewrite !length_app; simpl; lia).
    replace (Z.of_nat (length p + S (length q)))
      with (Z.of_nat (length (p ++ [y]) + length q))
      by (rewrite !length_app; simpl; lia).
    apply IH. intros z.
    replace ((p ++ [y]) ++ q ++ z :: junk) with (p ++ (y :: q) ++ z :: junk)
      by by rewrite <- !app_assoc.
    apply HQ.
Qed.

(** The loop of [_resize]: the elements are copied to the front of the new
    list, slot by slot. *)
Lemma wp_copy (done rest junk : list value) (m : nat) Q E self :
  _array self = done ++ rest ++ junk →
  Q ((done ++ rest) ++ replicate m VNone) self →
  wp (for_fold
        (range (Z.of_nat (length done)) (Z.of_nat (length done + length rest)))
        (λ i new_array,
           bind (array_get i) (λ x, index_or_raise (setitem new_array i x)))
        (done ++ replicate (length rest + m) VNone))
     Q E self.
Proof.
  revert done. induction rest as [|x rest IH]; intros done Harr HQ.
  - rewrite range_nil by (simpl; lia). apply wp_ret.
    by rewrite app_nil_r in HQ.
  - rewrite range_cons by (simpl; lia).
    cbn [for_fold]. wp_steps.
    rewrite Harr. cbn [app]. rewrite getitem_middle.
    apply wp_index_or_raise. cbn [length Nat.add replicate].
    rewrite setitem_middle.
    replace (done ++ x :: replicate (length rest + m) VNone)
      with ((done ++ [x]) ++ replicate (length rest + m) VNone)
      by by rewrite <- !app_assoc.
    replace (Z.of_nat (length done) + 1) with (Z.of_nat (length (done ++ [x])))
      by (rewrite !length_app; simpl; lia).
    replace (Z.of_nat (length done + S (length rest)))
      with (Z.of_nat (length (done ++ [x]) + length rest))
      by (rewrite !length_app; simpl; lia).
    apply IH.
    + by rewrite Harr, <- !app_assoc.
    + rewrite <- (app_assoc done [x] rest). exact HQ.
Qed.

(** *** What the object stores *)

Lemma stores_elements self els junk : stores self els junk → elements self = els.
Proof.
  intros [Ha Hs]. unfold elements. rewrite Ha, Hs, Nat2Z.id.
  by rewrite take_app_length.
Qed.

Lemma well_formed_holds self :
  well_formed 0 self →
  holds self (elements self) (drop (Z.to_nat (_size self)) (_array self)).
Proof.
  intros (H0 & Hfit & Hlen & Hm). unfold holds, stores, elements.
  rewrite take_drop, length_take, length_drop. split_and!; [done|lia..].
Qed.

Lemma holds_well_formed self els junk m :
  holds self els junk → m ≤ _capacity self → well_formed m self.
Proof.
  intros [[Ha Hs] Hc] Hm. unfold well_formed.
  rewrite Ha, Hs, Hc, length_app. lia.
Qed.

Lemma wp_returns {A} (m : M A) Q self :
  wp m Q (λ _ _, False) self →
  ∃ x, result (m self) = inr x ∧ Q x (self_after (m self)).
Proof. intros [_ H]. destruct (result (m self)); [done | eauto]. Qed.

(** *** [_resize] *)

Lemma wp_resize_content els junk n Q E self :
  stores self els junk → Z.of_nat (length els) ≤ n →
  Q tt (Build n (_size self)
          (els ++ replicate (Z.to_nat n - length els) VNone)) →
  wp (_resize n) Q E self.
Proof.
  intros [Ha Hs] Hn HQ. unfold _resize.
  apply wp_bind, wp_note_resize; [lia|]. wp_steps.
  rewrite Hs. unfold repeat_list.
  replace (Z.to_nat n) with (length els + (Z.to_nat n - length els))%nat by lia.
  apply (wp_copy [] els junk (Z.to_nat n - length els)); [done|].
  wp_steps. exact HQ.
Qed.

(** The test before [append] and [insert] stores: afterwards there is a
    free slot. *)
Lemma wp_grow_content els junk Q E self :
  holds self els junk → 1 ≤ _capacity self →
  (∀ s h junk',
     holds s els (h :: junk') →
     _capacity s =
       (if _size self =? _capacity self then 2 * _capacity self
        else _capacity self) →
     Q tt s) →
  wp (if _size self =? _capacity self
      then _resize (2 * _capacity self) else ret tt) Q E self.
Proof.
  intros [[Ha Hs] Hc] Hcap HQ.
  destruct (_size self =? _capacity self) eqn:Heq.
  - apply Z.eqb_eq in Heq.
    apply (wp_resize_content els junk); [done|lia|].
    destruct (Z.to_nat (2 * _capacity self) - length els)%nat as [|k] eqn:Hk;
      [lia|].
    apply (HQ _ VNone (replicate k VNone)); [|done].
    unfold holds, stores; simpl. rewrite length_replicate. split_and!; [done..|lia].
  - apply Z.eqb_neq in Heq. apply wp_ret.
    destruct junk as [|h junk']; [simpl in Hc; lia|].
    by apply (HQ self h junk').
Qed.

(** *** The methods on the elements *)

Lemma append_content els junk v self :
  holds self els junk → 1 ≤ _capacity self →
  wp (append v)
     (λ _ s, (∃ junk', holds s (els ++ [v]) junk') ∧ 1 ≤ _capacity s)
     (λ _ _, False) self.
Proof.
  intros Hh Hcap. unfold append. wp_steps.
  apply (wp_grow_content els junk); [done..|].
  intros s h junk' [[Ha Hs] Hc] Hcap'. wp_steps.
  rewrite Ha, Hs, setitem_middle. wp_steps. split.
  - exists junk'. unfold holds, stores; simpl.
    rewrite Hc, <- app_assoc, !length_app. simpl. split_and!; [done|lia..].
  - destruct (_size self =? _capacity self); lia.
Qed.

Lemma insert_content p q junk v self :
  holds self (p ++ q) junk → 1 ≤ _capacity self →
  wp (insert (Z.of_nat (length p)) v)
     (λ _ s, (∃ junk', holds s (p ++ v :: q) junk') ∧ 1 ≤ _capacity s)
     (λ _ _, False) self.
Proof.
  intros Hh Hcap. unfold insert. wp_steps.
  pose proof Hh as [[Ha Hs] Hc]. rewrite length_app in Hs.
  apply wp_if; intros Hb.
  { apply negb_true_iff, andb_false_iff in Hb as [Hb%Z.leb_gt|Hb%Z.leb_gt]; lia. }
  wp_steps.
  apply (wp_grow_content (p ++ q) junk); [done..|].
  intros [c n a] h junk' [[Ha' Hs'] Hc'] Hcap'. simpl in *. subst a n.
  wp_steps. rewrite <- app_assoc, length_app.
  apply wp_shift_right. intros h'. wp_steps.
  rewrite setitem_middle. wp_steps. split.
  - exists junk'. unfold holds, stores; simpl.
    rewrite Hc', <- app_assoc, !length_app. simpl. split_and!; [done|lia..].
  - destruct (_size self =? _capacity self); lia.
Qed.

Lemma pop_content p x q junk index self :
  holds self (p ++ x :: q) junk →
  index = Z.of_nat (length p) ∨ index = Z.of_nat (length p) - _size self →
  wp (pop index)
     (λ r s, r = x ∧ (∃ junk', holds s (p ++ q) junk') ∧
             _capacity s =
               (if (0 <? _size self - 1) &&
                   (_size self - 1 =? _capacity self `div` 4)
                then _capacity self `div` 2 else _capacity self))
     (λ _ _, False) self.
Proof.
  intros [[Ha Hs] Hc] Hidx. unfold pop, out_of_range. wp_steps.
  destruct self as [c n a]. simpl in *. subst a.
  rewrite length_app in Hs, Hc. simpl in Hs, Hc.
  apply wp_if; intros Hemp; [apply Z.eqb_eq in Hemp; lia|].
  replace (if index <? 0 then n + index else index)
    with (Z.of_nat (length p))
    by (destruct Hidx as [->| ->]; destruct (_ <? 0) eqn:?; lia).
  apply wp_if; intros Hb.
  { apply negb_true_iff, andb_false_iff in Hb as [Hb%Z.leb_gt|Hb%Z.ltb_ge]; lia. }
  wp_steps. rewrite <- (app_assoc p (x :: q) junk). cbn [app].
  rewrite getitem_middle. wp_steps.
  replace (n - 1) with (Z.of_nat (length p + length q)) by lia.
  apply wp_shift_left. intros z. wp_steps.
  replace (p ++ q ++ z :: junk) with ((p ++ q) ++ z :: junk)
    by by rewrite <- app_assoc.
  rewrite <- length_app, setitem_middle. wp_steps.
  apply wp_if; intros Hshrink.
  - pose proof Hshrink as [Hpos%Z.ltb_lt Hq%Z.eqb_eq]%andb_true_iff.
    destruct (quarter_half c) as [Hle Hhalf]; [lia|].
    apply (wp_resize_content (p ++ q) (VNone :: junk)); [done|lia|].
    simpl. wp_steps. rewrite Hshrink.
    split_and!; [done| |done].
    eexists. unfold holds, stores; simpl. split_and!; [done..|].
    rewrite length_replicate. lia.
  - wp_steps. rewrite Hshrink. split_and!; [done| |done].
    exists (VNone :: junk). unfold holds, stores; simpl.
    rewrite !length_app in *. simpl. split_and!; [done|lia..].
Qed.

(** The scan of [remove] passes the elements different from [v] and
    pops at the first one equal to it. *)
Lemma wp_remove_scan a b v l2 junk Q E self :
  holds self ((a ++ b) ++ v :: l2) junk → v ∉ b →
  wp (bind (pop (Z.of_nat (length (a ++ b)))) (λ _, ret tt)) Q E self →
  wp (remove_scan (range (Z.of_nat (length a)) (_size self)) v) Q E self.
Proof.
  intros Hh. revert a Hh. induction b as [|y b IH]; intros a Hh Hv Hpop.
  - rewrite app_nil_r in *. destruct Hh as [[Ha Hs] Hc].
    rewrite range_cons by (rewrite Hs, length_app; simpl; lia).
    cbn [remove_scan]. wp_steps.
    rewrite Ha, <- app_assoc. cbn [app]. rewrite getitem_middle.
    by rewrite decide_True.
  - pose proof Hh as [[Ha Hs] Hc].
    rewrite range_cons by (rewrite Hs, !length_app; simpl; lia).
    cbn [remove_scan]. wp_steps.
    rewrite Ha, <- !app_assoc. cbn [app]. rewrite getitem_middle.
    rewrite decide_False by (intros ->; apply Hv; by left).
    replace (Z.of_nat (length a) + 1) with (Z.of_nat (length (a ++ [y])))
      by (rewrite length_app; simpl; lia).
    apply IH.
    + by rewrite <- (app_assoc a [y] b).
    + intros Hin. apply Hv. by right.
    + by rewrite <- (app_assoc a [y] b).
Qed.

Lemma remove_content l1 v l2 junk self :
  holds self (l1 ++ v :: l2) junk → v ∉ l1 →
  wp (remove v) (λ _ s, ∃ junk', holds s (l1 ++ l2) junk') (λ _ _, False) self.
Proof.
  intros Hh Hv. unfold remove. wp_steps.
  apply (wp_remove_scan [] l1 v l2 junk); [done..|]. wp_steps.
  eapply wp_mono; [apply (pop_content l1 v l2 junk); [done | by left] | |done].
  intros r s (_ & Hs & _). by wp_steps.
Qed.

Lemma getitem_content p x q junk self :
  stores self (p ++ x :: q) junk →
  __getitem__ (Z.of_nat (length p)) self = Outcome self [] (inr x).
Proof.
  intros [Ha Hs]. rewrite length_app in Hs. simpl in Hs.
  unfold __getitem__, out_of_range, bind at 1, get_size. simpl.
  replace (0 <=? Z.of_nat (length p)) with true by (symmetry; apply Z.leb_le; lia).
  replace (Z.of_nat (length p) <? _size self) with true
    by (symmetry; apply Z.ltb_lt; lia).
  simpl. unfold array_get, bind, get_array. cbn [result self_after resizes].
  rewrite Ha, <- app_assoc. cbn [app]. by rewrite getitem_middle.
Qed.

Lemma setitem_content p x q junk v self :
  holds self (p ++ x :: q) junk →
  wp (__setitem__ (Z.of_nat (length p)) v)
     (λ _ s, holds s (p ++ v :: q) junk) (λ _ _, False) self.
Proof.
  intros [[Ha Hs] Hc]. unfold __setitem__, out_of_range. wp_steps.
  pose proof Hs as Hs'. rewrite length_app in Hs'. simpl in Hs'.
  apply wp_if; intros Hb.
  { apply negb_true_iff, andb_false_iff in Hb as [Hb%Z.leb_gt|Hb%Z.ltb_ge]; lia. }
  wp_steps. rewrite Ha, <- app_assoc. cbn [app]. rewrite setitem_middle.
  unfold holds, stores; simpl. rewrite <- app_assoc, !length_app in *.
  simpl in *. split_and!; [done|lia..].
Qed.

(** *** An array without room *)

Lemma barren_grow Q E self :
  barren self → (∀ s, barren s → Q tt s) →
  wp (if _size self =? _capacity self
      then _resize (2 * _capacity self) else ret tt) Q E self.
Proof.
  intros (Hs & Ha & Hc) HQ. destruct (_size self =? _capacity self) eqn:Heq.
  - apply Z.eqb_eq in Heq.
    apply (wp_resize_content [] []); [by split | simpl; lia |].
    apply HQ. unfold barren; simpl.
    by replace (_capacity self) with 0 by lia.
  - by apply wp_ret, HQ.
Qed.

Lemma barren_append v self :
  barren self →
  wp (append v) (λ _ _, False) (λ e s, e = IndexError ∧ barren s) self.
Proof.
  intros Hb. unfold append. wp_steps. apply barren_grow; [done|].
  intros s (Hs & Ha & Hc). wp_steps. by rewrite Ha, Hs.
Qed.

Lemma barren_insert index v self :
  barren self →
  wp (insert index v) (λ _ _, False) (λ e s, e = IndexError ∧ barren s) self.
Proof.
  intros Hb. unfold insert. wp_steps.
  apply wp_if; intros Hg; wp_steps; [done|].
  pose proof Hb as (Hs0 & _).
  apply negb_false_iff, andb_true_iff in Hg as [Hlo%Z.leb_le Hhi%Z.leb_le].
  assert (index = 0) as -> by lia.
  apply barren_grow; [done|].
  intros s (Hs & Ha & Hc). wp_steps. rewrite Hs. cbn [range_down for_each].
  rewrite range_down_nil by lia. cbn [for_each]. wp_steps. by rewrite Ha.
Qed.

Lemma barren_perform c self :
  barren self → wp (perform c) (λ _, barren) (λ _, barren) self.
Proof.
  intros Hb. pose proof Hb as (Hs & Ha & Hc). destruct c; simpl; wp_steps.
  - done.
  - unfold __getitem__, out_of_range. wp_steps. rewrite Hs.
    apply wp_if; intros Hg; wp_steps; [done|].
    apply negb_false_iff, andb_true_iff in Hg as [?%Z.leb_le ?%Z.ltb_lt]. lia.
  - unfold __setitem__, out_of_range. wp_steps. rewrite Hs.
    apply wp_if; intros Hg; wp_steps; [done|].
    apply negb_false_iff, andb_true_iff in Hg as [?%Z.leb_le ?%Z.ltb_lt]. lia.
  - eapply wp_mono; [by apply barren_append|done|]. by intros e s [_ ?].
  - eapply wp_mono; [by apply barren_insert|done|]. by intros e s [_ ?].
  - unfold remove. wp_steps. rewrite Hs. by wp_steps.
  - unfold pop. wp_steps. rewrite Hs. by wp_steps.
Qed.

Lemma reachable_barren capacity self :
  capacity ≤ 0 → reachable_from capacity self → barren self.
Proof.
  intros Hc [cs <-].
  assert (barren (__init__ capacity)) as Hinit.
  { unfold barren, __init__, repeat_list; simpl.
    by replace (Z.to_nat capacity) with 0%nat by lia. }
  revert Hinit. generalize (__init__ capacity) as s.
  induction cs as [|c cs IH]; intros s Hs; [done|].
  rewrite session_cons_fst. apply IH.
  destruct (barren_perform c s Hs) as [_ H].
  by destruct (result (perform c s)).
Qed.

(** What a client can reach stores its elements in a list as long as the
    capacity, or has no room at all. *)
Lemma reachable_holds capacity self :
  reachable_from capacity self →
  (∃ junk, holds self (elements self) junk ∧
           (1 ≤ capacity → 1 ≤ _capacity self)) ∨
  (capacity ≤ 0 ∧ barren self).
Proof.
  intros Hr. destruct (decide (1 ≤ capacity)) as [Hc|Hc].
  - left. pose proof (reachable_well_formed _ _ Hr) as Hwf.
    replace (capacity `min` 1) with 1 in Hwf by lia.
    eexists. split; [apply well_formed_holds|].
    + destruct Hwf as (? & ? & ? & ?). unfold well_formed. lia.
    + intros _. by destruct Hwf as (? & ? & ? & ?).
  - right. split; [lia|]. apply (reachable_barren capacity); [lia|done].
Qed.

Lemma barren_elements self : barren self → elements self = [].
Proof. intros (_ & Ha & _). unfold elements. by rewrite Ha, take_nil. Qed.

(** *** The array as a list *)

(** On an array constructed with capacity at least 1, [append] always
    returns, and the elements afterwards are the ones before followed by
    the new one. *)
Theorem append_adds_at_the_end (capacity : Z) (self : t) (v : value) :
  1 ≤ capacity → reachable_from capacity self →
  result (append v self) = inr tt ∧
  elements (self_after (append v self)) = elements self ++ [v].
Proof.
  intros Hc [(junk & Hh & Hcap)|[? _]]%reachable_holds; [|lia].
  destruct (wp_returns _ _ _ (append_content _ _ v self Hh (Hcap Hc)))
    as ([] & Hres & (junk' & [Hst _]) & _).
  split; [done|]. by apply stores_elements in Hst.
Qed.

(** On an array constructed with capacity at least 1, [insert] at an
    index from 0 to the length returns, and puts the value before the
    element that was at that index, all others keeping their order. *)
Theorem insert_puts_value_at_index (capacity : Z) (self : t) (index : Z) (v : value) :
  1 ≤ capacity → reachable_from capacity self →
  0 ≤ index ≤ _size self →
  result (insert index v self) = inr tt ∧
  elements (self_after (insert index v self)) =
    take (Z.to_nat index) (elements self) ++ v ::
    drop (Z.to_nat index) (elements self).
Proof.
  intros Hc [(junk & Hh & Hcap)|[? _]]%reachable_holds Hidx; [|lia].
  set (p := take (Z.to_nat index) (elements self)).
  set (q := drop (Z.to_nat index) (elements self)).
  assert (length (elements self) = Z.to_nat (_size self)) as Hlen
    by (destruct Hh as [[_ Hs] _]; lia).
  assert (Z.of_nat (length p) = index) as Hp
    by (subst p; rewrite length_take; lia).
  rewrite <- (take_drop (Z.to_nat index) (elements self)) in Hh.
  fold p q in Hh. rewrite <- Hp.
  destruct (wp_returns _ _ _ (insert_content p q junk v self Hh (Hcap Hc)))
    as ([] & Hres & (junk' & [Hst _]) & _).
  split; [done|]. by apply stores_elements in Hst.
Qed.

(** [pop] with an index from [-length] to [length - 1] returns the element
    at that position, counted from the end when the index is negative, and
    removes it, the others keeping their order; the capacity is halved
    when the new length is positive and a quarter of the capacity, and
    unchanged otherwise. *)
Theorem pop_removes_element_at_index (capacity : Z) (self : t) (index : Z) :
  reachable_from capacity self →
  - _size self ≤ index < _size self →
  let k := Z.to_nat (if index <? 0 then _size self + index else index) in
  ∃ x,
    elements self !! k = Some x ∧
    result (pop index self) = inr x ∧
    elements (self_after (pop index self)) = delete k (elements self) ∧
    _capacity (self_after (pop index self)) =
      (if (0 <? _size self - 1) && (_size self - 1 =? _capacity self `div` 4)
       then _capacity self `div` 2 else _capacity self).
Proof.
  intros [(junk & Hh & _)|[_ (Hs0 & _)]]%reachable_holds Hidx k; [|lia].
  assert (length (elements self) = Z.to_nat (_size self)) as Hlen
    by (destruct Hh as [[_ Hs] _]; lia).
  assert (k < length (elements self))%nat as Hk
    by (subst k; destruct (index <? 0) eqn:?; lia).
  destruct (lookup_lt_is_Some_2 _ _ Hk) as [x Hx].
  pose proof (take_drop_middle _ _ _ Hx) as Hsplit.
  set (p := take k (elements self)) in *.
  set (q := drop (S k) (elements self)) in *.
  assert (length p = k) as Hp by (subst p; rewrite length_take; lia).
  rewrite <- Hsplit in Hh.
  destruct (wp_returns _ _ _ (pop_content p x q junk index self Hh
              ltac:(subst k; destruct (index <? 0) eqn:?; lia)))
    as (r & Hres & -> & (junk' & [Hst _]) & Hcap).
  exists x. split_and!; [done..| |done].
  apply stores_elements in Hst. rewrite Hst.
  subst p q. by rewrite delete_take_drop.
Qed.

(** [remove] of a value that is among the elements returns and deletes
    its first occurrence, the other elements keeping their order. *)
Theorem remove_deletes_first_occurrence (capacity : Z) (self : t) (v : value) :
  reachable_from capacity self → (v ∈ elements self) →
  ∃ l1 l2,
    elements self = l1 ++ v :: l2 ∧ (v ∉ l1) ∧
    result (remove v self) = inr tt ∧
    elements (self_after (remove v self)) = l1 ++ l2.
Proof.
  intros [(junk & Hh & _)|[_ Hb]]%reachable_holds Hin;
    [|rewrite (barren_elements _ Hb) in Hin; by apply not_elem_of_nil in Hin].
  destruct (list_elem_of_split_l _ _ Hin) as (l1 & l2 & Hsplit & Hl1).
  exists l1, l2. rewrite Hsplit in Hh.
  destruct (wp_returns _ _ _ (remove_content l1 v l2 junk self Hh Hl1))
    as ([] & Hres & junk' & [Hst _]).
  split_and!; [done..|]. by apply stores_elements in Hst.
Qed.

(** With an index from 0 to [length - 1], [__getitem__] returns the
    element at that index and changes nothing; [__setitem__] returns and
    replaces that element only, so that [__getitem__] then returns the
    value written; the capacity stays. *)
Theorem getitem_setitem_at_index (capacity : Z) (self : t) (index : Z) (v : value) :
  reachable_from capacity self →
  0 ≤ index < _size self →
  let after := self_after (__setitem__ index v self) in
  (∃ x, elements self !! Z.to_nat index = Some x ∧
        __getitem__ index self = Outcome self [] (inr x)) ∧
  result (__setitem__ index v self) = inr tt ∧
  elements after = <[Z.to_nat index := v]> (elements self) ∧
  _capacity after = _capacity self ∧
  __getitem__ index after = Outcome after [] (inr v).
Proof.
  intros [(junk & Hh & _)|[_ (Hs0 & _)]]%reachable_holds Hidx after; [|lia].
  assert (length (elements self) = Z.to_nat (_size self)) as Hlen
    by (destruct Hh as [[_ Hs] _]; lia).
  destruct (lookup_lt_is_Some_2 (elements self) (Z.to_nat index)) as [x Hx];
    [lia|].
  pose proof (take_drop_middle _ _ _ Hx) as Hsplit.
  set (p := take (Z.to_nat index) (elements self)) in *.
  set (q := drop (S (Z.to_nat index)) (elements self)) in *.
  assert (Z.of_nat (length p) = index) as Hp
    by (subst p; rewrite length_take; lia).
  rewrite <- Hsplit in Hh.
  pose proof (getitem_content p x q junk self (proj1 Hh)) as Hget.
  destruct (wp_returns _ _ _ (setitem_content p x q junk v self Hh))
    as ([] & Hres & [Hst Hcap]).
  rewrite Hp in Hget, Hres, Hst, Hcap. fold after in Hst, Hcap.
  pose proof (getitem_content p v q junk after Hst) as Hget'.
  rewrite Hp in Hget'.
  split_and!; [by exists x|done| | |done].
  - rewrite (stores_elements _ _ _ Hst), <- Hsplit.
    replace (Z.to_nat index) with (length p + 0)%nat by lia.
    by rewrite insert_app_r.
  - destruct Hh as [_ Hc]. rewrite Hcap, Hc, !length_app. simpl. lia.
Qed.

(** An array constructed with a capacity of 0 or less stays empty: every
    [append] and every [insert] raises [IndexError], whatever was tried
    before. *)
Theorem no_capacity_no_append (capacity : Z) (self : t) :
  capacity ≤ 0 → reachable_from capacity self →
  elements self = [] ∧
  (∀ v, result (append v self) = inl IndexError) ∧
  (∀ index v, result (insert index v self) = inl IndexError).
Proof.
  intros Hc Hr. pose proof (reachable_barren _ _ Hc Hr) as Hb.
  split_and!.
  - by apply barren_elements.
  - intros v. destruct (barren_append v self Hb) as [_ H].
    destruct (result (append v self)); [by destruct H as [-> _] | done].
  - intros index v. destruct (barren_insert index v self Hb) as [_ H].
    destruct (result (insert index v self)); [by destruct H as [-> _] | done].
Qed.

(** *** [insert] at the end *)

Lemma outcome_eta {A} (r : outcome A) :
  Outcome (self_after r) (resizes r) (result r) = r.
Proof. by destruct r. Qed.

Lemma bind_get_size {B} (f : Z → M B) self :
  bind get_size f self = f (_size self) self.
Proof. unfold bind, get_size. simpl. apply outcome_eta. Qed.

Lemma bind_get_capacity {B} (f : Z → M B) self :
  bind get_capacity f self = f (_capacity self) self.
Proof. unfold bind, get_capacity. simpl. apply outcome_eta. Qed.

Lemma bind_ret {A B} (x : A) (f : A → M B) self :
  bind (ret x) f self = f x self.
Proof. unfold bind, ret. simpl. apply outcome_eta. Qed.

Lemma bind_cong {A B} (m : M A) (f g : A → M B) self :
  (∀ x, result (m self) = inr x →
        f x (self_after (m self)) = g x (self_after (m self))) →
  bind m f self = bind m g self.
Proof.
  intros H. unfold bind. destruct (result (m self)) as [e|x]; [done|].
  by rewrite H.
Qed.

(** [insert] and [append] differ by the bounds test and by a loop that
    has nothing to move when the index is the length. *)
Lemma insert_at_size_is_append v self :
  0 ≤ _size self →
  (∀ x, result ((if _size self =? _capacity self
                 then _resize (2 * _capacity self) else ret tt) self) = inr x →
        _size (self_after ((if _size self =? _capacity self
                            then _resize (2 * _capacity self) else ret tt) self))
        = _size self) →
  insert (_size self) v self = append v self.
Proof.
  intros H0 Hgrow. unfold insert, append.
  rewrite !bind_get_size.
  replace (0 <=? _size self) with true by (symmetry; apply Z.leb_le; lia).
  rewrite Z.leb_refl. cbn [andb negb].
  rewrite !bind_get_capacity.
  apply bind_cong. intros x Hx. specialize (Hgrow x Hx).
  rewrite !bind_get_size, Hgrow.
  rewrite range_down_nil by lia. cbn [for_each].
  by rewrite bind_ret.
Qed.

(** In every state a client can reach, [insert] at the index [length] is
    [append]: the same result, the same object afterwards, the same calls
    of [_resize]. *)
Theorem insert_at_length_is_append (capacity : Z) (self : t) (v : value) :
  reachable_from capacity self →
  insert (_size self) v self = append v self.
Proof.
  intros Hr.
  pose proof (reachable_well_formed _ _ Hr) as Hwf.
  apply insert_at_size_is_append; [by destruct Hwf|].
  intros x Hx.
  destruct (wp_grow (capacity `min` 1) (λ _ s, _size s = _size self)
              (λ _ _, True) self Hwf) as [_ H]; [done|].
  by rewrite Hx in H.
Qed.

(** In every state a client can reach, [_resize] to a capacity that is not
    below the length returns, keeps the elements, and sets the capacity. *)
Theorem resize_keeps_elements (capacity : Z) (self : t) (n : Z) :
  reachable_from capacity self → _size self ≤ n →
  result (_resize n self) = inr tt ∧
  elements (self_after (_resize n self)) = elements self ∧
  _capacity (self_after (_resize n self)) = n ∧
  _size (self_after (_resize n self)) = _size self.
Proof.
  intros Hr Hn.
  assert (∃ junk, stores self (elements self) junk) as [junk Hst].
  { destruct (reachable_holds _ _ Hr) as [(junk & [Hst _] & _)|[_ Hb]];
      [by exists junk|].
    exists []. rewrite (barren_elements _ Hb). by destruct Hb as (? & ? & _). }
  pose proof Hst as [_ Hs].
  destruct (wp_returns (_resize n)
              (λ _ s, elements s = elements self ∧ _capacity s = n ∧
                      _size s = _size self) self) as ([] & Hres & H).
  { apply (wp_resize_content (elements self) junk); [done|lia|].
    split_and!; [|done..]. unfold elements at 1; simpl.
    by rewrite Hs, Nat2Z.id, take_app_length. }
  done.
Qed.

(** *** Instances *)

Lemma append_adds_at_the_end_witness :
  result (append (VInt 4) sample) = inr tt ∧
  elements (self_after (append (VInt 4) sample)) = elements sample ++ [VInt 4].
Proof.
  apply (append_adds_at_the_end 2); [lia | by exists [Append (VInt 1); Append (VInt 2); Append (VInt 3)]].
Defined.

Lemma insert_puts_value_at_index_witness :
  result (insert 1 (VInt 9) sample) = inr tt ∧
  elements (self_after (insert 1 (VInt 9) sample)) =
    take (Z.to_nat 1) (elements sample) ++ VInt 9 ::
    drop (Z.to_nat 1) (elements sample).
Proof.
  apply (insert_puts_value_at_index 2);
    [lia | by exists [Append (VInt 1); Append (VInt 2); Append (VInt 3)] | simpl; lia].
Defined.

Lemma pop_removes_element_at_index_witness :
  let k := Z.to_nat (if -1 <? 0 then _size sample + -1 else -1) in
  ∃ x,
    elements sample !! k = Some x ∧
    result (pop (-1) sample) = inr x ∧
    elements (self_after (pop (-1) sample)) = delete k (elements sample) ∧
    _capacity (self_after (pop (-1) sample)) =
      (if (0 <? _size sample - 1) &&
          (_size sample - 1 =? _capacity sample `div` 4)
       then _capacity sample `div` 2 else _capacity sample).
Proof.
  apply (pop_removes_element_at_index 2);
    [by exists [Append (VInt 1); Append (VInt 2); Append (VInt 3)] | simpl; lia].
Defined.

Lemma remove_deletes_first_occurrence_witness :
  ∃ l1 l2,
    elements sample = l1 ++ VInt 2 :: l2 ∧ (VInt 2 ∉ l1) ∧
    result (remove (VInt 2) sample) = inr tt ∧
    elements (self_after (remove (VInt 2) sample)) = l1 ++ l2.
Proof.
  apply (remove_deletes_first_occurrence 2); [by exists [Append (VInt 1); Append (VInt 2); Append (VInt 3)]|].
  vm_compute. apply list_elem_of_In. simpl. tauto.
Defined.

Lemma getitem_setitem_at_index_witness :
  let after := self_after (__setitem__ 1 (VInt 9) sample) in
  (∃ x, elements sample !! Z.to_nat 1 = Some x ∧
        __getitem__ 1 sample = Outcome sample [] (inr x)) ∧
  result (__setitem__ 1 (VInt 9) sample) = inr tt ∧
  elements after = <[Z.to_nat 1 := VInt 9]> (elements sample) ∧
  _capacity after = _capacity sample ∧
  __getitem__ 1 after = Outcome after [] (inr (VInt 9)).
Proof.
  apply (getitem_setitem_at_index 2); [by exists [Append (VInt 1); Append (VInt 2); Append (VInt 3)] | simpl; lia].
Defined.

Lemma no_capacity_no_append_witness :
  let self := (session [Append (VInt 1); Pop 0] (__init__ 0)).1 in
  elements self = [] ∧
  (∀ v, result (append v self) = inl IndexError) ∧
  (∀ index v, result (insert index v self) = inl IndexError).
Proof.
  intros self. apply (no_capacity_no_append 0); [lia|].
  by exists [Append (VInt 1); Pop 0].
Defined.

Lemma insert_at_length_is_append_witness :
  insert (_size sample) (VInt 4) sample = append (VInt 4) sample.
Proof.
  apply (insert_at_length_is_append 2).
  by exists [Append (VInt 1); Append (VInt 2); Append (VInt 3)].
Defined.

Lemma resize_keeps_elements_witness :
  result (_resize 8 sample) = inr tt ∧
  elements (self_after (_resize 8 sample)) = elements sample ∧
  _capacity (self_after (_resize 8 sample)) = 8 ∧
  _size (self_after (_resize 8 sample)) = _size sample.
Proof.
  apply (resize_keeps_elements 2); [by exists [Append (VInt 1); Append (VInt 2); Append (VInt 3)] | simpl; lia].
Defined.

End DynamicArrayContents.

(** ** How often [append] grows the array *)

Module DynamicArrayGrowth.
Import Py PyFacts DynamicArray DynamicArrayFacts DynamicArrayContents.

Lemma resizes_bind {A B} (m : M A) (f : A → M B) self :
  resizes (bind m f self) =
    match result (m self) with
    | inl _ => resizes (m self)
    | inr x => resizes (m self) ++ resizes (f x (self_after (m self)))
    end.
Proof. unfold bind. by destruct (result (m self)). Qed.

Lemma silent_bind {A B} (m : M A) (f : A → M B) :
  silent m → (∀ x, silent (f x)) → silent (bind m f).
Proof.
  intros Hm Hf self. rewrite resizes_bind, Hm.
  destruct (result (m self)); [done|]. apply Hf.
Qed.

Lemma silent_index_or_raise {A} (o : option A) : silent (index_or_raise o).
Proof. by destruct o. Qed.

Lemma silent_array_get i : silent (array_get i).
Proof.
  apply silent_bind; [done|]. intros a. apply silent_index_or_raise.
Qed.

Lemma silent_array_set i x : silent (array_set i x).
Proof.
  apply silent_bind; [done|]. intros a.
  apply silent_bind; [apply silent_index_or_raise | done].
Qed.

Lemma silent_for_fold {B} idxs (body : Z → B → M B) acc :
  (∀ i b, silent (body i b)) → silent (for_fold idxs body acc).
Proof.
  intros Hbody. revert acc. induction idxs as [|i idxs IH]; intros acc; [done|].
  simpl. apply silent_bind; [apply Hbody | apply IH].
Qed.

(** [_resize] is logged once, with the size at that time. *)
Lemma resizes_resize n self :
  resizes (_resize n self) = [ResizeCall n (_size self)].
Proof.
  unfold _resize. rewrite resizes_bind.
  cbn [note_resize result self_after resizes].
  assert (silent (bind get_size (λ size,
            bind (for_fold (range 0 size)
                    (λ i new_array,
                       bind (array_get i)
                         (λ x, index_or_raise (setitem new_array i x)))
                    (repeat_list VNone n))
              (λ new_array,
                 bind (set_array new_array) (λ _, set_capacity n)))))
    as Hrest.
  { apply silent_bind; [done|]. intros size. apply silent_bind.
    - apply silent_for_fold. intros i b.
      apply silent_bind; [apply silent_array_get|].
      intros x. apply silent_index_or_raise.
    - intros a. by apply silent_bind. }
  by rewrite Hrest.
Qed.

(** [append] calls [_resize] when the array is full, and only then. *)
Lemma resizes_append v self :
  resizes (append v self) =
    if _size self =? _capacity self
    then [ResizeCall (2 * _capacity self) (_size self)] else [].
Proof.
  unfold append. rewrite bind_get_size, bind_get_capacity, resizes_bind.
  assert (∀ s, resizes (bind get_size (λ size,
                 bind (array_set size v) (λ _, set_size (size + 1))) s) = [])
    as Hrest.
  { apply silent_bind; [done|]. intros size.
    apply silent_bind; [apply silent_array_set | done]. }
  rewrite Hrest, app_nil_r.
  destruct (_size self =? _capacity self).
  - rewrite resizes_resize. by destruct (result _).
  - done.
Qed.

(** In a run of [append]s every call of [_resize] asks for twice the
    size the array has then: the array is full. *)
Lemma appends_resize_when_full vs self :
  well_formed 1 self →
  Forall (λ r, new_capacity_arg r = 2 * size_at_call r)
    (session (Append <$> vs) self).2.
Proof.
  revert self. induction vs as [|v vs IH]; intros self Hwf; [constructor|].
  destruct (append_returns v self Hwf) as (_ & Hwf' & _).
  specialize (IH _ Hwf').
  rewrite fmap_cons. cbn [session].
  change (bind (append v) (λ _, ret VNone) self)
    with (perform (Append v) self).
  rewrite perform_append_after.
  destruct (session (Append <$> vs) (self_after (append v self)))
    as [s' log].
  cbn [snd] in *. apply Forall_app. split; [|done].
  assert (resizes (perform (Append v) self) = resizes (append v self)) as ->.
  { simpl. rewrite resizes_bind. destruct (result _); [done|].
    apply app_nil_r. }
  rewrite resizes_append.
  destruct (_size self =? _capacity self) eqn:Heq; [|constructor].
  apply Z.eqb_eq in Heq. repeat constructor. simpl. lia.
Qed.

Lemma sizes_at_resizes_app l1 l2 : sizes_at_resizes (l1 ++ l2) = sizes_at_resizes l1 + sizes_at_resizes l2.
Proof.
  induction l1 as [|c l1 IH]; simpl; [done|]. rewrite IH. lia.
Qed.

(** Over a run of [append]s the sizes at the calls of [_resize] add up
    to what the capacity has grown by. *)
Lemma appends_sizes_at_resizes vs self :
  well_formed 1 self →
  sizes_at_resizes (session (Append <$> vs) self).2 =
    _capacity (session (Append <$> vs) self).1 - _capacity self.
Proof.
  revert self. induction vs as [|v vs IH]; intros self Hwf.
  - simpl. lia.
  - destruct (append_returns v self Hwf) as (_ & Hwf' & _ & Hcap & _).
    specialize (IH _ Hwf').
    rewrite fmap_cons, session_cons_fst, perform_append_after.
    cbn [session].
    change (bind (append v) (λ _, ret VNone) self)
      with (perform (Append v) self).
    rewrite perform_append_after.
    destruct (session (Append <$> vs) (self_after (append v self)))
      as [s' log] eqn:Hsess.
    cbn [fst snd] in *. rewrite sizes_at_resizes_app, IH, Hcap.
    assert (resizes (perform (Append v) self) = resizes (append v self)) as ->.
    { simpl. rewrite resizes_bind. destruct (result _); [done|].
      apply app_nil_r. }
    rewrite resizes_append.
    destruct (_size self =? _capacity self) eqn:Heq; simpl; [|lia].
    apply Z.eqb_eq in Heq. lia.
Qed.

(** A run of [append]s adds the values at the end, in order. *)
Lemma appends_elements vs self els junk :
  holds self els junk → 1 ≤ _capacity self →
  elements (session (Append <$> vs) self).1 = els ++ vs.
Proof.
  revert self els junk. induction vs as [|v vs IH]; intros self els junk Hh Hc.
  - simpl. rewrite app_nil_r. by apply (stores_elements _ _ junk), Hh.
  - rewrite fmap_cons, session_cons_fst, perform_append_after.
    destruct (wp_returns _ _ _ (append_content els junk v self Hh Hc))
      as ([] & _ & (junk' & Hh') & Hc').
    rewrite (IH _ _ _ Hh' Hc'), <- app_assoc. done.
Qed.

(** [k] calls of [append] on a new array of capacity [c >= 1] leave the
    [k] values as the elements, in order; [_resize] is called on the way
    only when the array is full, and the sizes the array had at those
    calls add up to what the capacity has grown by, which is no more than
    [2 * k]. *)
Theorem appends_resize_at_sizes_within_twice (c : Z) (vs : list value) :
  1 ≤ c →
  let run := session (Append <$> vs) (__init__ c) in
  elements run.1 = vs ∧
  Forall (λ r, new_capacity_arg r = 2 * size_at_call r) run.2 ∧
  sizes_at_resizes run.2 = _capacity run.1 - c ∧
  sizes_at_resizes run.2 ≤ 2 * Z.of_nat (length vs).
Proof.
  intros Hc run.
  assert (well_formed 1 (__init__ c)) as Hwf.
  { pose proof (init_well_formed c) as H.
    by replace (c `min` 1) with 1 in H by lia. }
  pose proof (appends_sizes_at_resizes vs (__init__ c) Hwf) as Hcost.
  fold run in Hcost. simpl in Hcost.
  split_and!.
  - pose proof (well_formed_holds (__init__ c)) as Hh.
    change (elements (__init__ c)) with (@nil value) in Hh.
    apply (appends_elements vs _ [] _ (Hh ltac:(
      destruct Hwf as (? & ? & ? & ?); unfold well_formed; lia))).
    simpl. lia.
  - apply (appends_resize_when_full vs (__init__ c) Hwf).
  - done.
  - rewrite Hcost.
    destruct (session_appends c vs (__init__ c) Hc Hwf)
      as (_ & (m & Hcap & Hmin) & Hsize).
    { exists 0%nat. split; [simpl; lia|]. intros m' Hm'. lia. }
    fold run in Hcap, Hmin, Hsize. simpl in Hsize. rewrite Hcap.
    destruct m as [|m]; [simpl; lia|].
    specialize (Hmin m ltac:(lia)).
    rewrite Nat2Z.inj_succ, Z.pow_succ_r by lia. lia.
Qed.

Lemma appends_resize_at_sizes_within_twice_witness :
  let vs := [VInt 1; VInt 2; VInt 3; VInt 4; VInt 5] in
  let run := session (Append <$> vs) (__init__ 2) in
  elements run.1 = vs ∧
  Forall (λ r, new_capacity_arg r = 2 * size_at_call r) run.2 ∧
  sizes_at_resizes run.2 = _capacity run.1 - 2 ∧
  sizes_at_resizes run.2 ≤ 2 * Z.of_nat (length vs).
Proof.
  intros vs. apply (appends_resize_at_sizes_within_twice 2 vs). lia.
Defined.

End DynamicArrayGrowth.
